(** * pyem map utility: a shallow embedding of [map.py]

    The development follows the script top-down: a small layer for the
    numpy operations the script relies on (1-D broadcasting, [arange],
    [meshgrid], 4x4 homogeneous matrices), the scipy resampling
    primitives expressed through one shared point-sampling function,
    then [ismask], [resample_volume] and [main].  The centre-of-mass
    function [find_cm] of [recenter.py] is embedded in the module
    [Recenter].

    Conventions.
    - Scalars (voxel values, coordinates, pixel sizes) are rationals [Q];
      rounding of IEEE doubles is not modelled.  The standard-pose target,
      which needs square roots, is also given over the reals (module
      [TargetPose]).
    - An exception that Python would raise is the value [None] of an
      [option]; [main] additionally separates a handled failure (exit
      status 1) from an exception that escapes.
    - The script targets Python 2.7: [/] on integers is floor division. *)

From Stdlib Require Import Ascii String.
From Stdlib Require Import List ZArith QArith Qround Bool Lia Lqa.
From Stdlib Require Reals Lra RNsatz.
Import ListNotations.

Local Open Scope Q_scope.

(** ** numpy layer *)

Module Np.

Definition vec := list Q.

(** Element-wise binary operation on two 1-D arrays with numpy's
    broadcasting rule: equal lengths, or one operand of length one. *)
Definition broadcast2 (f : Q -> Q -> Q) (a b : vec) : option vec :=
  if Nat.eqb (length a) (length b)
  then Some (map (fun p => f (fst p) (snd p)) (combine a b))
  else match a, b with
       | [x], _ => Some (map (f x) b)
       | _, [y] => Some (map (fun x => f x y) a)
       | _, _ => None
       end.

(** In-place [a -= b]: the result must keep the shape of [a]. *)
Definition isub (a b : vec) : option vec :=
  if Nat.eqb (length a) (length b)
  then Some (map (fun p => fst p - snd p) (combine a b))
  else match b with
       | [y] => Some (map (fun x => x - y) a)
       | _ => None
       end.

Definition sub (a b : vec) : option vec := broadcast2 Qminus a b.

(** Array divided (or shifted) by a scalar. *)
Definition div_scalar (a : vec) (s : Q) : vec := map (fun x => x / s) a.
Definition sub_scalar (a : vec) (s : Q) : vec := map (fun x => x - s) a.
Definition neg (a : vec) : vec := map Qopp a.

(** [np.all(a < b)] for a float array [a] against the integer box. *)
Definition all_lt (a : vec) (b : list Z) : option bool :=
  option_map (forallb (fun d => negb (Qle_bool 0 d)))
             (sub a (map inject_Z b)).

(** [np.arange(lo, hi)]: [ceil(hi - lo)] values starting at [lo]. *)
Definition arange (lo hi : Q) : vec :=
  map (fun i => lo + inject_Z (Z.of_nat i))
      (seq 0 (Z.to_nat (Qceiling (hi - lo)))).

(** [np.meshgrid(xs, ys, zs, indexing="xy")]: three arrays of shape
    [(len ys, len xs, len zs)].  The three arrays are kept together as the
    list of their entries [[x; y; z]] in C (row-major) order, so the first
    axis runs over [ys] and the second over [xs]. *)
Definition meshgrid_xy (xs ys zs : vec) : list vec :=
  flat_map (fun y => flat_map (fun x => map (fun z => [x; y; z]) zs) xs) ys.

(** [np.vstack([x, y, z, ones])]: a 4 x N array, kept as its N columns. *)
Definition vstack_ones (pts : list vec) : list vec :=
  map (fun p => p ++ [1]) pts.

(** Matrices are lists of rows. *)
Definition matrix := list vec.

Definition eye4 : matrix :=
  [[1; 0; 0; 0]; [0; 1; 0; 0]; [0; 0; 1; 0]; [0; 0; 0; 1]].

Definition dotp (a b : vec) : Q :=
  fold_right Qplus 0 (map (fun p => fst p * snd p) (combine a b)).

(** [m.dot(v)] for a matrix and a column. *)
Definition mat_vec (m : matrix) (v : vec) : vec := map (fun row => dotp row v) m.

(** [m.dot(v)] for a 3x3 matrix given as rows; the operand must have
    three entries. *)
Definition dot3 (m : matrix) (v : vec) : option vec :=
  if Nat.eqb (length v) 3 then Some (mat_vec m v) else None.

(** A 3x3 block, as the script receives rotations. *)
Definition vec3 := (Q * Q * Q)%type.
Definition mat33 := (vec3 * vec3 * vec3)%type.

Definition v3list (v : vec3) : vec := let '(a, b, c) := v in [a; b; c].
Definition rows33 (m : mat33) : matrix :=
  let '(r0, r1, r2) := m in [v3list r0; v3list r1; v3list r2].

(** [m.T] *)
Definition transpose33 (m : mat33) : mat33 :=
  let '((a, b, c), (d, e, f), (g, h, i)) := m in
  ((a, d, g), (b, e, h), (c, f, i)).

Definition eye3 : mat33 := ((1, 0, 0), (0, 1, 0), (0, 0, 1)).

(** [m[:3, :3] = b] on a 4x4 matrix. *)
Definition set_block33 (m : matrix) (b : mat33) : matrix :=
  match m, rows33 b with
  | [r0; r1; r2; r3], [b0; b1; b2] =>
      [b0 ++ skipn 3 r0; b1 ++ skipn 3 r1; b2 ++ skipn 3 r2; r3]
  | _, _ => m
  end.

(** [m[:3, 3] = v]; [v] is broadcast to shape (3,). *)
Definition set_col3 (m : matrix) (v : vec) : option matrix :=
  let put row x := firstn 3 row ++ [x] in
  match m, v with
  | [r0; r1; r2; r3], [a; b; c] => Some [put r0 a; put r1 b; put r2 c; r3]
  | [r0; r1; r2; r3], [a] => Some [put r0 a; put r1 a; put r2 a; r3]
  | _, _ => None
  end.

(** A dense 3-D array: its shape and its entries in C order. *)
Record ndarray := mkarray { shape : nat * nat * nat; data : list Q }.

Definition size_of (s : nat * nat * nat) : nat :=
  let '(a, b, c) := s in (a * b * c)%nat.

Definition size (a : ndarray) : nat := size_of (shape a).

Definition wf (a : ndarray) : Prop := length (data a) = size a.

(** [a.copy()] *)
Definition copy (a : ndarray) : ndarray := mkarray (shape a) (data a).

(** [a[i, j, k]] for in-range integer indices. *)
Definition get (a : ndarray) (i j k : Z) : option Q :=
  let '(n0, n1, n2) := shape a in
  if ((0 <=? i) && (i <? Z.of_nat n0) && (0 <=? j) && (j <? Z.of_nat n1)
      && (0 <=? k) && (k <? Z.of_nat n2))%Z
  then nth_error (data a)
                 (Z.to_nat ((i * Z.of_nat n1 + j) * Z.of_nat n2 + k))
  else None.

(** All index triples of a shape, in C order. *)
Definition indices (s : nat * nat * nat) : list vec :=
  let '(n0, n1, n2) := s in
  let ax n := map (fun i => inject_Z (Z.of_nat i)) (seq 0 n) in
  flat_map (fun i => flat_map (fun j => map (fun k => [i; j; k]) (ax n2)) (ax n1))
           (ax n0).

(** [np.array(a.shape) / 2] on integers. *)
Definition half_shape (a : ndarray) : vec :=
  let '(n0, n1, n2) := shape a in
  map (fun n => inject_Z (Z.of_nat n / 2)) [n0; n1; n2].

(** Element-wise [(a - mu) / sigma]. *)
Definition zscore (a : ndarray) (mu sigma : Q) : ndarray :=
  mkarray (shape a) (map (fun x => (x - mu) / sigma) (data a)).

(** Removal of repeated values, as [np.unique] does before [.size]. *)
Fixpoint unique (l : list Q) : list Q :=
  match l with
  | [] => []
  | x :: tl => x :: filter (fun y => negb (Qeq_bool x y)) (unique tl)
  end.

(** [a[start::step]] along the first axis: the planes [start],
    [start + step], ... below the first dimension, flattened.  A zero step
    raises. *)
Definition planes_from (a : ndarray) (start step : nat) : option (list Q) :=
  let '(n0, n1, n2) := shape a in
  match step with
  | O => None
  | S _ =>
      let picked := filter (fun i => (start <=? i)%nat
                                     && Nat.eqb ((i - start) mod step) 0)
                           (seq 0 n0) in
      Some (flat_map (fun i => firstn (n1 * n2) (skipn (i * (n1 * n2)) (data a)))
                     picked)
  end.

End Np.

Import Np.

(** The [r] argument of [resample_volume]: the two documented forms of a
    transformation matrix, 3x3 or 3x4 with an embedded translation column. *)
Inductive rot :=
| Rot3x3 (m : mat33)
| Rot3x4 (m : mat33) (col : vec3).

(** [r[:3, :3]], [r.shape[1]] and [np.squeeze(r[:, 3])]. *)
Definition rot_block (r : rot) : mat33 :=
  match r with Rot3x3 m => m | Rot3x4 m _ => m end.

Definition rot_columns (r : rot) : nat :=
  match r with Rot3x3 _ => 3%nat | Rot3x4 _ _ => 4%nat end.

Definition rot_column3 (r : rot) : vec :=
  match r with Rot3x3 _ => [] | Rot3x4 _ c => v3list c end.

(** ** scipy.ndimage resampling primitives

    [map_coordinates], [affine_transform] and [shift] all evaluate one
    spline interpolant of the input at a source coordinate per output
    voxel (default boundary mode); they differ in how that coordinate is
    obtained.  The interpolant is the parameter [interp]. *)

Section Resampling.

Variable interp : nat -> ndarray -> vec -> Q.

(** [map_coordinates(input, coords, order)], with [coords] of shape
    [(3,) + s] given by [s] and its columns in C order. *)
Definition map_coordinates (input : ndarray) (s : nat * nat * nat)
           (coords : list vec) (order : nat) : ndarray :=
  mkarray s (map (interp order input) coords).

(** [affine_transform(input, m, offset=offset, order=order)]: output voxel
    [i] takes the value at [m.dot(i) + offset].  The offset must have one
    entry per axis. *)
Definition affine_transform (input : ndarray) (m : mat33) (offset : vec)
           (order : nat) : option ndarray :=
  match offset with
  | [_; _; _] =>
      Some (mkarray (shape input)
              (map (fun i => interp order input
                               (map (fun p => fst p + snd p)
                                    (combine (mat_vec (rows33 m) i) offset)))
                   (indices (shape input))))
  | _ => None
  end.

(** [shift(input, s, order=order)]: output voxel [i] takes the value at
    [i - s]. *)
Definition shift (input : ndarray) (s : vec) (order : nat) : option ndarray :=
  match s with
  | [_; _; _] =>
      Some (mkarray (shape input)
              (map (fun i => interp order input
                               (map (fun p => fst p - snd p) (combine i s)))
                   (indices (shape input))))
  | _ => None
  end.

(** ** [ismask] *)

Definition ismask (vol : ndarray) : option bool :=
  let '(_, _, n2) := shape vol in
  option_map (fun sample => (length (unique sample) <? 100)%nat)
             (planes_from vol (n2 / 2) n2).

(** ** [resample_volume] *)

Definition resample_volume (vol : ndarray) (r : option rot) (t : option vec)
           (ori : option vec) (order : nat) : option ndarray :=
  match r, t with
  | None, None => Some (copy vol)
  | _, _ =>
      let ori := match ori with Some o => o | None => half_shape vol end in
      match ori with
      | [ox; oy; oz] =>
          let xyz := vstack_ones (meshgrid_xy (arange (- ox) ox)
                                              (arange (- oy) oy)
                                              (arange (- oz) oz)) in
          let th := eye4 in
          (* if t is None and r.shape[1] == 4: t = ... ; elif t is not None: th[:3,3] = ... *)
          let t_th :=
            match t, r with
            | None, Some m =>
                if Nat.eqb (rot_columns m) 4
                then option_map (fun t' => (Some t', th)) (sub (rot_column3 m) ori)
                else Some (t, th)
            | None, None => Some (t, th)
            | Some tv, _ =>
                match sub tv ori with
                | Some d => option_map (fun th' => (t, th')) (set_col3 th d)
                | None => None
                end
            end in
          match t_th with
          | None => None
          | Some (_, th) =>
              let rh := match r with
                        | Some m => set_block33 eye4 (transpose33 (rot_block m))
                        | None => eye4
                        end in
              let xyz := map (fun p =>
                                map (fun q => fst q + snd q)
                                    (combine (firstn 3 (mat_vec th (mat_vec rh p))) ori))
                             xyz in
              (* xyz[a].reshape(vol.shape) *)
              if Nat.eqb (length xyz) (size vol)
              then Some (map_coordinates vol (shape vol) xyz order)
              else None
          end
      | _ => None
      end
  end.

End Resampling.

(** ** A concrete interpolant for evaluating runs

    Nearest-neighbour sampling with zero outside the array: what the
    primitives compute at spline order 0 with the default boundary mode.
    It is used below only at integer in-range coordinates, where every
    spline order returns the stored voxel. *)
Definition nearest (order : nat) (input : ndarray) (c : vec) : Q :=
  match c with
  | [x; y; z] =>
      match get input (Qfloor (x + (1 # 2))) (Qfloor (y + (1 # 2)))
                      (Qfloor (z + (1 # 2))) with
      | Some v => v
      | None => 0
      end
  | _ => 0
  end.

(** A 2x2x2 volume with eight different voxel values. *)
Definition cube8 : ndarray :=
  mkarray (2, 2, 2)%nat [1; 2; 3; 4; 5; 6; 7; 8].

(** ** [main] *)

(** The header fields the script reads. *)
Record header := mkheader { nx : Z; ny : Z; nz : Z; xlen : Q }.

(** The parsed command line ([argparse] namespace). *)
Record args := mkargs {
  input : string;
  output : string;
  apix : option Q;
  normalize : bool;
  reference : option string;
  origin : option string;
  target : option string;
  euler : option string;
  translate : option string;
  matrix : option string;
  spline_order : nat;
  quiet : bool;
  verbose : bool
}.

(** Records handed to the logger, one constructor per call site. *)
Inductive msg :=
| InfoMeanStd (mu sigma : Q)
| InfoPixelSize (a : Q)
| WarnTargetAfterMatrix
| WarnEulerAfterTarget
| WarnTranslateLast
| ErrorOrigin
| InfoOrigin (o : vec)
| WarnMask
| ErrorMatrix
| ErrorTarget
| InfoTargetPose (angles : vec) (dist : Q)
| ErrorEuler
| ErrorTranslate.

(** How a piece of the script ends: with a value, with an early
    [return code], or with an exception that nothing catches. *)
Inductive result (A : Type) :=
| Val (a : A)
| Return (code : Z)
| Raise.
Arguments Val {A} a.
Arguments Return {A} code.
Arguments Raise {A}.

(** Computations that append to the log. *)
Definition M (A : Type) := list msg -> result A * list msg.

Definition ret {A} (a : A) : M A := fun l => (Val a, l).

Definition bind {A B} (m : M A) (k : A -> M B) : M B :=
  fun l => match m l with
           | (Val a, l') => k a l'
           | (Return c, l') => (Return c, l')
           | (Raise, l') => (Raise, l')
           end.

Definition emit (m : msg) : M unit := fun l => (Val tt, l ++ [m]).
Definition return_ {A} (c : Z) : M A := fun l => (Return c, l).
Definition raise {A} : M A := fun l => (Raise, l).

(** A call that may raise outside of any [try]. *)
Definition call {A} (o : option A) : M A :=
  match o with Some a => ret a | None => raise end.

Definition when (b : bool) (m : M unit) : M unit := if b then m else ret tt.

Notation "x <- m ;; k" := (bind m (fun x => k))
  (at level 61, m at next level, right associativity).
Notation "m ;;; k" := (bind m (fun _ => k))
  (at level 61, right associativity).

(** Truth value of an optional string in a condition: [None] and the empty
    string are false. *)
Definition truthy (s : option string) : bool :=
  match s with Some s => negb (String.eqb s EmptyString) | None => false end.

Definition given {A} (o : option A) : bool :=
  match o with Some _ => true | None => false end.

(** What [write(args.output, final, psz=args.apix)] receives. *)
Record written := mkwritten { w_path : string; w_data : ndarray; w_psz : Q }.

(** The Euler branch of [main] for a rotation [r] about [origin]:
    [offset = origin - 0.5; offset = offset - r.T.dot(offset);
     affine_transform(data, r.T, offset=offset, order=order)]. *)
Definition euler_branch interp (data : ndarray) (r : mat33) (origin : vec)
           (order : nat) : option ndarray :=
  let offset := sub_scalar origin (1 # 2) in
  match dot3 (rows33 (transpose33 r)) offset with
  | Some ro =>
      match sub offset ro with
      | Some offset => affine_transform interp data (transpose33 r) offset order
      | None => None
      end
  | None => None
  end.

(** Collaborators of the script that live outside [map.py].  The numeric
    ones are total functions on the rationals; the parsers and [vec2rot]
    return [None] where Python raises. *)
Record Env := mkenv {
  (** the spline interpolant behind the scipy primitives *)
  interp : nat -> ndarray -> vec -> Q;
  np_mean : ndarray -> Q;
  np_std : ndarray -> Q;
  (** [[np.double(tok) for tok in s.split(",")]] *)
  parse_floats : string -> option vec;
  (** [np.array(json.loads(s))] *)
  json_matrix : string -> option rot;
  deg2rad : Q -> Q;
  euler2rot : Q -> Q -> Q -> mat33;
  vec2rot : vec -> option mat33;
  (** [np.rad2deg(rot2euler(r))] *)
  rot2euler_deg : mat33 -> vec;
  (** [np.linalg.norm] *)
  norm : vec -> Q;
  (** [read(path, inc_header=True)] on the files present at start-up *)
  read : string -> option (ndarray * header)
}.

Section Script.

Variable E : Env.

(** The body of [main], with the mask test as a parameter so that its
    influence on the run can be stated. *)
Definition main_body (classify : ndarray -> option bool) (a : args) : M written :=
  dh <- call (read E (input a)) ;;
  let data := fst dh in
  let hdr := snd dh in
  let box := [nx hdr; ny hdr; nz hdr] in
  final <- (if normalize a
            then sigma <- (match reference a with
                           | Some p => rh <- call (read E p) ;; ret (np_std E (fst rh))
                           | None => ret (np_std E data)
                           end) ;;
                 let mu := np_mean E data in
                 when (verbose a) (emit (InfoMeanStd mu sigma)) ;;;
                 ret (Some (zscore data mu sigma))
            else ret None) ;;
  apix <- (match apix a with
           | None => let p := xlen hdr / inject_Z (nx hdr) in
                     emit (InfoPixelSize p) ;;; ret p
           | Some p => ret p
           end) ;;
  when (truthy (target a) && truthy (matrix a)) (emit WarnTargetAfterMatrix) ;;;
  when (given (euler a) && (given (target a) || given (matrix a)))
       (emit WarnEulerAfterTarget) ;;;
  when (given (translate a)
        && (given (euler a) || given (target a) || given (matrix a)))
       (emit WarnTranslateLast) ;;;
  origin <- (match origin a with
             | Some s =>
                 match parse_floats E s with
                 | Some l =>
                     let o := div_scalar l apix in
                     match all_lt o box with
                     | Some true => ret o
                     | _ => emit ErrorOrigin ;;; return_ 1%Z
                     end
                 | None => emit ErrorOrigin ;;; return_ 1%Z
                 end
             | None =>
                 let o := map (fun n => inject_Z (n / 2)) box in
                 emit (InfoOrigin (map (fun x => x * apix) o)) ;;; ret o
             end) ;;
  mask <- call (classify data) ;;
  when (mask && negb (Nat.eqb (spline_order a) 0)) (emit WarnMask) ;;;
  data <- (match matrix a with
           | Some s =>
               match json_matrix E s with
               | Some r =>
                   call (resample_volume (interp E) data (Some r) None None
                                         (spline_order a))
               | None => emit ErrorMatrix ;;; return_ 1%Z
               end
           | None => ret data
           end) ;;
  data <- (match target a with
           | Some s =>
               match parse_floats E s with
               | Some l =>
                   tv <- call (isub (div_scalar l apix) origin) ;;
                   r <- call (vec2rot E tv) ;;
                   let t := norm E tv in
                   emit (InfoTargetPose (rot2euler_deg E r) t) ;;;
                   call (resample_volume (interp E) data (Some (Rot3x3 r)) (Some tv)
                                         (Some origin) (spline_order a))
               | None => emit ErrorTarget ;;; return_ 1%Z
               end
           | None => ret data
           end) ;;
  data <- (match euler a with
           | Some s =>
               match parse_floats E s with
               | Some l =>
                   match map (deg2rad E) l with
                   | [phi; theta; psi] =>
                       let r := euler2rot E phi theta psi in
                       call (euler_branch (interp E) data r origin (spline_order a))
                   | _ => raise
                   end
               | None => emit ErrorEuler ;;; return_ 1%Z
               end
           | None => ret data
           end) ;;
  data <- (match translate a with
           | Some s =>
               match parse_floats E s with
               | Some l =>
                   tv <- call (isub (div_scalar l apix) origin) ;;
                   call (shift (interp E) data (neg tv) (spline_order a))
               | None => emit ErrorTranslate ;;; return_ 1%Z
               end
           | None => ret data
           end) ;;
  let final := match final with Some f => f | None => data end in
  ret (mkwritten (output a) final apix).

(** [main(args)]: the outcome and the log.  [Val w] stands for the call
    of [write] with [w] followed by [return 0]. *)
Definition main (a : args) : result written * list msg :=
  main_body ismask a [].

End Script.

(** ** The outcome of [main] without the log

    The same stages as in [main_body], as values of [result]; the lemma
    [main_outcome] below shows that they compose to the outcome of [main]. *)

Definition rbind {A B} (r : result A) (k : A -> result B) : result B :=
  match r with
  | Val a => k a
  | Return c => Return c
  | Raise => Raise
  end.

Definition rcall {A} (o : option A) : result A :=
  match o with Some a => Val a | None => Raise end.

Section Stages.

Variable E : Env.

Definition box_of (hdr : header) : list Z := [nx hdr; ny hdr; nz hdr].

Definition normalized (a : args) (data : ndarray) : result (option ndarray) :=
  if normalize a
  then rbind (match reference a with
              | Some p => rbind (rcall (read E p)) (fun rh => Val (np_std E (fst rh)))
              | None => Val (np_std E data)
              end)
             (fun sigma => Val (Some (zscore data (np_mean E data) sigma)))
  else Val None.

Definition resolve_apix (a : args) (hdr : header) : Q :=
  match apix a with
  | Some p => p
  | None => xlen hdr / inject_Z (nx hdr)
  end.

Definition resolve_origin (a : args) (hdr : header) (p : Q) : result vec :=
  match origin a with
  | Some s =>
      match parse_floats E s with
      | Some l =>
          match all_lt (div_scalar l p) (box_of hdr) with
          | Some true => Val (div_scalar l p)
          | _ => Return 1%Z
          end
      | None => Return 1%Z
      end
  | None => Val (map (fun n => inject_Z (n / 2)) (box_of hdr))
  end.

Definition matrix_step (a : args) (data : ndarray) : result ndarray :=
  match matrix a with
  | Some s =>
      match json_matrix E s with
      | Some r => rcall (resample_volume (interp E) data (Some r) None None
                                         (spline_order a))
      | None => Return 1%Z
      end
  | None => Val data
  end.

Definition target_step (a : args) (p : Q) (o : vec) (data : ndarray)
  : result ndarray :=
  match target a with
  | Some s =>
      match parse_floats E s with
      | Some l =>
          rbind (rcall (isub (div_scalar l p) o)) (fun tv =>
          rbind (rcall (vec2rot E tv)) (fun r =>
          rcall (resample_volume (interp E) data (Some (Rot3x3 r)) (Some tv)
                                 (Some o) (spline_order a))))
      | None => Return 1%Z
      end
  | None => Val data
  end.

Definition euler_step (a : args) (o : vec) (data : ndarray) : result ndarray :=
  match euler a with
  | Some s =>
      match parse_floats E s with
      | Some l =>
          match map (deg2rad E) l with
          | [phi; theta; psi] =>
              rcall (euler_branch (interp E) data (euler2rot E phi theta psi) o
                                  (spline_order a))
          | _ => Raise
          end
      | None => Return 1%Z
      end
  | None => Val data
  end.

Definition translate_step (a : args) (p : Q) (o : vec) (data : ndarray)
  : result ndarray :=
  match translate a with
  | Some s =>
      match parse_floats E s with
      | Some l =>
          rbind (rcall (isub (div_scalar l p) o)) (fun tv =>
          rcall (shift (interp E) data (neg tv) (spline_order a)))
      | None => Return 1%Z
      end
  | None => Val data
  end.

(** The four pose steps in the order of the script. *)
Definition pose_steps (a : args) (p : Q) (o : vec) (data : ndarray)
  : result ndarray :=
  rbind (matrix_step a data) (fun d1 =>
  rbind (target_step a p o d1) (fun d2 =>
  rbind (euler_step a o d2) (fun d3 =>
  translate_step a p o d3))).

Definition outcome (classify : ndarray -> option bool) (a : args)
  : result written :=
  rbind (rcall (read E (input a))) (fun dh =>
  let data := fst dh in
  let hdr := snd dh in
  rbind (normalized a data) (fun final =>
  let p := resolve_apix a hdr in
  rbind (resolve_origin a hdr p) (fun o =>
  rbind (rcall (classify data)) (fun _ =>
  rbind (matrix_step a data) (fun d1 =>
  rbind (target_step a p o d1) (fun d2 =>
  rbind (euler_step a o d2) (fun d3 =>
  rbind (translate_step a p o d3) (fun d =>
  Val (mkwritten (output a) (match final with Some f => f | None => d end)
                 p))))))))).

End Stages.

(** The volume a run hands to [write], if it gets that far. *)
Definition written_volume (r : result written * list msg) : option ndarray :=
  match fst r with
  | Val w => Some (w_data w)
  | _ => None
  end.

(** Command lines that differ in the requested pose mechanisms. *)
Definition with_pose (a : args) (m t e tr : option string) : args :=
  mkargs (input a) (output a) (apix a) (normalize a) (reference a) (origin a)
         t e tr m (spline_order a) (quiet a) (verbose a).

Definition only_matrix (a : args) : args := with_pose a (matrix a) None None None.
Definition only_target (a : args) : args := with_pose a None (target a) None None.
Definition only_euler (a : args) : args := with_pose a None None (euler a) None.
Definition only_translate (a : args) : args :=
  with_pose a None None None (translate a).

Definition with_origin (a : args) (o : option string) : args :=
  mkargs (input a) (output a) (apix a) (normalize a) (reference a) o
         (target a) (euler a) (translate a) (matrix a) (spline_order a)
         (quiet a) (verbose a).

(** The same collaborators with [d] (and header [hdr]) stored under the
    path [p]. *)
Definition with_file (E : Env) (p : string) (d : ndarray) (hdr : header) : Env :=
  mkenv (interp E) (np_mean E) (np_std E) (parse_floats E) (json_matrix E)
        (deg2rad E) (euler2rot E) (vec2rot E) (rot2euler_deg E) (norm E)
        (fun q => if String.eqb q p then Some (d, hdr) else read E q).

(** ** Concrete collaborators for evaluating runs

    Exact stand-ins on the inputs the example runs use: plain decimal
    literals, statistics whose variance is the square of a rational, the
    identity matrix in JSON, vectors along the reference view axis.  The
    properties proved for every [Env] do not depend on them. *)

Fixpoint split_comma (s : string) : list string :=
  match s with
  | EmptyString => [EmptyString]
  | String c tl =>
      if Ascii.eqb c ","%char then EmptyString :: split_comma tl
      else match split_comma tl with
           | tok :: rest => String c tok :: rest
           | [] => [String c EmptyString]
           end
  end.

Definition digit (c : ascii) : option Z :=
  let n := nat_of_ascii c in
  if ((48 <=? n) && (n <=? 57))%nat then Some (Z.of_nat (n - 48)) else None.

Fixpoint digits (s : string) (acc : Z) : option Z :=
  match s with
  | EmptyString => Some acc
  | String c tl =>
      match digit c with
      | Some d => digits tl (10 * acc + d)%Z
      | None => None
      end
  end.

Fixpoint split_point (s : string) : string * option string :=
  match s with
  | EmptyString => (EmptyString, None)
  | String c tl =>
      if Ascii.eqb c "."%char then (EmptyString, Some tl)
      else let '(i, f) := split_point tl in (String c i, f)
  end.

(** A decimal literal: optional sign, digits, optional fraction. *)
Definition decimal (s : string) : option Q :=
  let '(sign, body) :=
    match s with
    | String c tl => if Ascii.eqb c "-"%char then ((-1)%Z, tl) else (1%Z, s)
    | EmptyString => (1%Z, s)
    end in
  let '(ip, fp) := split_point body in
  let fp := match fp with Some f => f | None => EmptyString end in
  if (String.length ip + String.length fp =? 0)%nat then None
  else match digits ip 0, digits fp 0 with
       | Some i, Some f =>
           Some (inject_Z sign
                 * (inject_Z i + inject_Z f / inject_Z (10 ^ Z.of_nat (String.length fp))))
       | _, _ => None
       end.

Fixpoint sequence {A} (l : list (option A)) : option (list A) :=
  match l with
  | [] => Some []
  | Some a :: tl => option_map (cons a) (sequence tl)
  | None :: _ => None
  end.

Definition parse_decimals (s : string) : option vec :=
  sequence (map decimal (split_comma s)).

Definition Qsum (l : list Q) : Q := fold_right Qplus 0 l.

Definition mean_exact (a : ndarray) : Q :=
  Qred (Qsum (data a) / inject_Z (Z.of_nat (length (data a)))).

(** Square root of a rational that is a square. *)
Definition sqrt_exact (q : Q) : Q :=
  let r := Qred q in Z.sqrt (Qnum r) # Pos.sqrt (Qden r).

Definition std_exact (a : ndarray) : Q :=
  let m := mean_exact a in
  sqrt_exact (Qsum (map (fun x => (x - m) * (x - m)) (data a))
              / inject_Z (Z.of_nat (length (data a)))).

Definition norm_exact (v : vec) : Q :=
  sqrt_exact (Qsum (map (fun x => x * x) v)).

Definition json_identity (s : string) : option rot :=
  if String.eqb s "[[1,0,0],[0,1,0],[0,0,1]]" then Some (Rot3x3 eye3) else None.

(** The rotation taking the view axis (0,0,1) to the direction of [v], for
    [v] on the positive part of that axis. *)
Definition vec2rot_axis (v : vec) : option mat33 :=
  match v with
  | [x; y; z] =>
      if Qeq_bool x 0 && Qeq_bool y 0 && negb (Qle_bool z 0)
      then Some eye3 else None
  | _ => None
  end.

(** A 2x2x2 volume with two voxel values, mean 1 and deviation 1. *)
Definition two_level : ndarray :=
  mkarray (2, 2, 2)%nat [0; 2; 0; 2; 0; 2; 0; 2].

Definition header8 : header := mkheader 2 2 2 2.

Definition files (vol : ndarray) (p : string) : option (ndarray * header) :=
  if String.eqb p "in.mrc" then Some (vol, header8) else None.

(** The collaborators used by the example runs; Euler angles are only
    ever zero there. *)
Definition example_env (vol : ndarray) : Env :=
  mkenv nearest mean_exact std_exact parse_decimals json_identity
        (fun d => d * (355 # 113) / 180)
        (fun _ _ _ => eye3) vec2rot_axis (fun _ => [0; 0; 0]) norm_exact
        (files vol).

Definition example_args (norm_flag : bool) (o t e tr m : option string) : args :=
  mkargs "in.mrc" "out.mrc" (Some 1) norm_flag None o t e tr m 0 false false.

(** ** Vocabulary of the statements *)

Definition even_shape (vol : ndarray) : bool :=
  let '(n0, n1, n2) := shape vol in Nat.even n0 && Nat.even n1 && Nat.even n2.

(** [m] ends in [r] whatever has been logged so far. *)
Definition ends {A} (m : M A) (r : result A) : Prop :=
  forall l, fst (m l) = r.

(** The deviation used for z-scoring: of the reference volume if one is
    named, of the input otherwise. *)
Definition sigma_of (E : Env) (a : args) (dat : ndarray) : option Q :=
  match reference a with
  | Some p => option_map (fun rh => np_std E (fst rh)) (read E p)
  | None => Some (np_std E dat)
  end.

Definition no_pose (a : args) : Prop :=
  matrix a = None /\ target a = None /\ euler a = None /\ translate a = None.

Definition to_option {A} (r : result A) : option A :=
  match r with Val a => Some a | _ => None end.

Definition and_then {A B} (o : option A) (k : A -> option B) : option B :=
  match o with Some a => k a | None => None end.

(** All four mechanisms on the 2x2x2 volume [cube8]. *)
Definition all_four : args :=
  example_args false (Some "1,1,1"%string) (Some "1,1,3"%string) (Some "0,0,0"%string)
               (Some "2,1,1"%string) (Some "[[1,0,0],[0,1,0],[0,0,1]]"%string).

(** The rest of the run once the origin is [o]. *)
Definition continue_from_origin (E : Env) (a : args) (dat : ndarray)
           (hdr : header) (final : option ndarray) (o : vec) : result written :=
  rbind (rcall (ismask dat)) (fun _ =>
  rbind (pose_steps E a (resolve_apix a hdr) o dat) (fun d =>
  Val (mkwritten (output a) (match final with Some f => f | None => d end)
                 (resolve_apix a hdr)))).

Definition identity_json : option string :=
  Some "[[1,0,0],[0,1,0],[0,0,1]]"%string.

Definition only_target_requested (a : args) : Prop :=
  normalize a = false /\ matrix a = None /\ euler a = None /\ translate a = None.

Definition differs (x y : Q) : bool := negb (Qeq_bool x y).

Definition depth (vol : ndarray) : nat := snd (shape vol).

Definition ramp (n : nat) : list Q :=
  map (fun i => inject_Z (Z.of_nat i)) (seq 0 n).

(** A 20x50x50 box whose 50,000 voxels all differ. *)
Definition ramp_volume : ndarray := mkarray (20, 50, 50)%nat (ramp 50000).

(** A 20x20x20 box of zeros and ones. *)
Definition mask20 : ndarray :=
  mkarray (20, 20, 20)%nat
          (map (fun i => if Nat.even i then 0 else 1) (seq 0 8000)).

Definition positive_shape (vol : ndarray) : bool :=
  let '(n0, n1, n2) := shape vol in
  (0 <? n0)%nat && (0 <? n1)%nat && (0 <? n2)%nat.

(** Entry-wise equality of rational vectors. *)
Definition veq (a b : vec) : Prop := Forall2 Qeq a b.

(** The rotation block [resample_volume] puts into [rh]: [r[:3,:3]], or
    the identity when [r] is absent. *)
Definition rot_or_eye (r : option rot) : mat33 :=
  match r with Some m => rot_block m | None => eye3 end.

(** [m.T.dot(g) + s] on three-component vectors. *)
Definition back_map (m : mat33) (s : vec) (g : vec) : vec :=
  map (fun q => fst q + snd q) (combine (mat_vec (rows33 (transpose33 m)) g) s).

(** The grid of [resample_volume] about the origin [(ox, oy, oz)]. *)
Definition grid_about (ox oy oz : Q) : list vec :=
  meshgrid_xy (arange (- ox) ox) (arange (- oy) oy) (arange (- oz) oz).

(** ** [recenter.py]: the centre of mass of an image *)

Module Recenter.

(** A dense 2-D array in C order. *)
Record image := mkimage { height : nat; width : nat; pixels : list Q }.

Definition wf_image (im : image) : Prop :=
  length (pixels im) = (height im * width im)%nat.

(** [np.meshgrid(xs, ys)] with the default "xy" indexing: two arrays of
    shape [(len ys, len xs)], kept as the list of pairs [(x, y)] in C
    order. *)
Definition meshgrid2 (xs ys : vec) : list (Q * Q) :=
  flat_map (fun y => map (fun x => (x, y)) xs) ys.

(** [np.average(a, axis=None, weights=w)] for [a] of shape [s]: the shapes
    must agree and the weights must not sum to zero. *)
Definition average (a : list Q) (s : nat * nat) (w : image) : option Q :=
  if Nat.eqb (fst s) (height w) && Nat.eqb (snd s) (width w)
  then let scl := Qsum (pixels w) in
       if Qeq_bool scl 0 then None
       else Some (Qsum (map (fun q => fst q * snd q) (combine a (pixels w))) / scl)
  else None.

Definition find_cm (im : image) : option (Q * Q) :=
  let l := inject_Z (Z.of_nat (height im) / 2) in
  let xs := arange (- l) l in
  let ys := arange (- l) l in
  let xy := meshgrid2 xs ys in
  match average (map fst xy) (length ys, length xs) im with
  | Some mu_x =>
      match average (map snd xy) (length ys, length xs) im with
      | Some mu_y => Some (mu_x, mu_y)
      | None => None
      end
  | None => None
  end.

(** [c * im] *)
Definition scale (c : Q) (im : image) : image :=
  mkimage (height im) (width im) (map (Qmult c) (pixels im)).

End Recenter.

(** ** Vocabulary of the further statements *)

Definition picks (start step i : nat) : bool :=
  (start <=? i)%nat && Nat.eqb ((i - start) mod step) 0.

(** The [i]-th plane of the first axis, flattened. *)
Definition plane (vol : ndarray) (i : nat) : list Q :=
  firstn (snd (fst (shape vol)) * depth vol)
         (skipn (i * (snd (fst (shape vol)) * depth vol)) (data vol)).

Definition is_error (m : msg) : bool :=
  match m with
  | ErrorOrigin | ErrorMatrix | ErrorTarget | ErrorEuler | ErrorTranslate => true
  | _ => false
  end.

Definition no_error (l : list msg) : Prop :=
  forallb (fun x => negb (is_error x)) l = true.

(** How a result and the messages logged on the way fit together: an
    early return has code 1 and follows one error message, the only one;
    otherwise no error message was logged. *)
Definition error_discipline {A} (r : result A) (out : list msg) : Prop :=
  match r with
  | Return c => c = 1%Z /\ exists pre e, out = pre ++ [e] /\ is_error e = true
                                         /\ no_error pre
  | _ => no_error out
  end.

Definition tidy {A} (m : M A) : Prop :=
  forall l, exists out, snd (m l) = l ++ out /\ error_discipline (fst (m l)) out.

(** [m] only appends to the log, and only messages that satisfy [P]. *)
Definition emits {A} (P : msg -> Prop) (m : M A) : Prop :=
  forall l, exists out, snd (m l) = l ++ out /\ Forall P out.

Definition args_order3 (o t e tr m : option string) : args :=
  mkargs "in.mrc" "out.mrc" (Some 1) false None o t e tr m 3 false false.

Definition two_by_two : Recenter.image := Recenter.mkimage 2 2 [1; 1; 1; 3].

(** ** The standard-pose target over the reals

    The target step of [main] (lines 97-107) once more, with real numbers
    for the scalars, so that the Euclidean norm and the normalised
    direction exist for every vector. *)

Module TargetPose.
Import Reals.
Local Open Scope R_scope.

Definition rvec := (R * R * R)%type.

(** A 3x3 matrix as its three rows. *)
Definition rmat := (rvec * rvec * rvec)%type.

Definition rdot (a b : rvec) : R :=
  let '(a0, a1, a2) := a in
  let '(b0, b1, b2) := b in
  a0 * b0 + a1 * b1 + a2 * b2.

Definition rmat_vec (m : rmat) (v : rvec) : rvec :=
  let '(r0, r1, r2) := m in (rdot r0 v, rdot r1 v, rdot r2 v).

Definition rtranspose (m : rmat) : rmat :=
  let '((a, b, c), (d, e, f), (g, h, i)) := m in
  ((a, d, g), (b, e, h), (c, f, i)).

Definition rmat_mul (m n : rmat) : rmat :=
  let '(c0, c1, c2) := rtranspose n in
  let '(r0, r1, r2) := m in
  ((rdot r0 c0, rdot r0 c1, rdot r0 c2),
   (rdot r1 c0, rdot r1 c1, rdot r1 c2),
   (rdot r2 c0, rdot r2 c1, rdot r2 c2)).

Definition reye : rmat := ((1, 0, 0), (0, 1, 0), (0, 0, 1)).

Definition rdet (m : rmat) : R :=
  let '((a, b, c), (d, e, f), (g, h, i)) := m in
  a * (e * i - f * h) - b * (d * i - f * g) + c * (d * h - e * g).

(** A proper rotation: orthonormal rows, determinant 1. *)
Definition is_rotation (m : rmat) : Prop :=
  rmat_mul m (rtranspose m) = reye /\ rdet m = 1.

Definition rscale (k : R) (v : rvec) : rvec :=
  let '(x, y, z) := v in (k * x, k * y, k * z).

(** [v / s] and [a - b] on arrays. *)
Definition rdiv (v : rvec) (s : R) : rvec :=
  let '(x, y, z) := v in (x / s, y / s, z / s).

Definition rsub (a b : rvec) : rvec :=
  let '(a0, a1, a2) := a in
  let '(b0, b1, b2) := b in
  (a0 - b0, a1 - b1, a2 - b2).

(** Modelled from the spec: [np.linalg.norm] on a vector, the Euclidean
    norm (the function is numpy's, not part of the sources at hand). *)
Definition euclidean_norm (v : rvec) : R := sqrt (rdot v v).

(** The normalised direction of a vector. *)
Definition direction (v : rvec) : rvec := rscale (/ euclidean_norm v) v.

(** Modelled from the spec: the contract of [vec2rot] (module pyem.util,
    whose source is not at hand).  For every non-zero vector it returns a
    rotation matrix that maps the reference view axis onto the normalised
    direction of the vector. *)
Definition vec2rot_contract (axis : rvec) (vec2rot : rvec -> rmat) : Prop :=
  forall v, v <> (0, 0, 0) ->
            is_rotation (vec2rot v) /\ rmat_vec (vec2rot v) axis = direction v.

(** What the target step hands to [resample_volume] ([r], [t], [ori]) and
    the shift it logs. *)
Record target_pose := mkpose {
  tp_rotation : rmat;
  tp_translation : rvec;
  tp_origin : rvec;
  tp_shift : R
}.

Section Normalizer.

Variable vec2rot : rvec -> rmat.

(** Lines 99-107 of [main], for a target that has been parsed:
    [args.target = v / args.apix; args.target -= args.origin;
     r = vec2rot(args.target); t = np.linalg.norm(args.target);
     resample_volume(data, r=r, t=args.target, ori=args.origin, ...)]. *)
Definition normalize_target (v : rvec) (apix : R) (origin : rvec) : target_pose :=
  let target := rdiv v apix in
  let target := rsub target origin in
  let r := vec2rot target in
  let t := euclidean_norm target in
  mkpose r target origin t.

End Normalizer.

(** A function that meets the contract for the view axis (0,0,1): the
    half-turn about the bisector of the axis and the direction. *)
Definition bisector_rotation (v : rvec) : rmat :=
  let '(a, b, c) := direction v in
  if Req_dec_T (1 + c) 0
  then ((1, 0, 0), (0, -1, 0), (0, 0, -1))
  else let k := / (1 + c) in
       ((a * a * k - 1, a * b * k, a),
        (a * b * k, b * b * k - 1, b),
        (a, b, c)).

End TargetPose.

(** * Properties *)

(** ** Sizes of the coordinate grid *)

Lemma length_flat_map_const {A B} (f : A -> list B) (l : list A) (k : nat) :
  (forall x, length (f x) = k) -> length (flat_map f l) = (length l * k)%nat.
Proof.
  intros Hf. induction l as [|x l IH]; [reflexivity|].
  cbn [flat_map length]. now rewrite length_app, IH, Hf.
Qed.

Lemma length_meshgrid_xy (xs ys zs : vec) :
  length (meshgrid_xy xs ys zs) = (length ys * (length xs * length zs))%nat.
Proof.
  unfold meshgrid_xy.
  apply length_flat_map_const. intros y.
  apply length_flat_map_const. intros x.
  apply length_map.
Qed.

Lemma length_arange (lo hi : Q) :
  length (arange lo hi) = Z.to_nat (Qceiling (hi - lo)).
Proof. unfold arange. now rewrite length_map, length_seq. Qed.

Lemma length_arange_half (n : nat) :
  Nat.even n = true ->
  length (arange (- inject_Z (Z.of_nat n / 2)) (inject_Z (Z.of_nat n / 2))) = n.
Proof.
  intros He. rewrite length_arange.
  assert (Hq : inject_Z (Z.of_nat n / 2) - - inject_Z (Z.of_nat n / 2)
               == inject_Z (Z.of_nat n)).
  { apply Nat.even_spec in He. destruct He as [k ->].
    replace (Z.of_nat (2 * k) / 2)%Z with (Z.of_nat k).
    - unfold Qeq, Qminus, Qplus, Qopp, inject_Z. simpl. lia.
    - rewrite Nat2Z.inj_mul. simpl Z.of_nat.
      rewrite Z.mul_comm, Z.div_mul; lia. }
  rewrite (Qceiling_comp _ _ Hq), Qceiling_Z. apply Nat2Z.id.
Qed.

Lemma copy_eq (vol : ndarray) : copy vol = vol.
Proof. now destruct vol. Qed.

(** The three possible ends of [resample_volume] once a transform is
    requested: the result, when there is one, is the output of
    [map_coordinates] on a grid of exactly [size vol] points. *)
Lemma resample_volume_some interp vol r t ori order v' :
  resample_volume interp vol r t ori order = Some v' ->
  (r = None /\ t = None /\ v' = copy vol) \/
  (exists coords, length coords = size vol /\
                  v' = map_coordinates interp vol (shape vol) coords order).
Proof.
  unfold resample_volume. intros H.
  destruct r as [m|], t as [tv|];
    try (left; injection H as <-; now auto); right.
  all: destruct (match ori with Some o => o | None => half_shape vol end)
    as [|ox [|oy [|oz [|? ?]]]]; try discriminate.
  all: match type of H with
       | match ?x with _ => _ end = _ => destruct x as [[? th]|]; try discriminate
       end.
  all: match type of H with
       | (if ?c then _ else _) = _ => destruct c eqn:Hc; try discriminate
       end.
  all: injection H as <-; eexists; split; [|reflexivity].
  all: now apply Nat.eqb_eq in Hc.
Qed.

(** C2.  [resample_volume] with neither rotation nor translation returns
    the input volume, entry for entry and with the same shape, whatever the
    origin and spline order; the interpolant is never consulted, so the
    result is the same for every choice of it. *)
Theorem resample_volume_identity :
  forall interp vol ori order,
    resample_volume interp vol None None ori order = Some vol.
Proof.
  intros. unfold resample_volume. now rewrite copy_eq.
Qed.

(** ** Shape of the resampled volume *)

Lemma length_default_grid (vol : ndarray) :
  even_shape vol = true ->
  match half_shape vol with
  | [ox; oy; oz] =>
      length (vstack_ones (meshgrid_xy (arange (- ox) ox) (arange (- oy) oy)
                                       (arange (- oz) oz))) = size vol
  | _ => False
  end.
Proof.
  unfold even_shape, half_shape, size, size_of.
  destruct (shape vol) as [[n0 n1] n2]. intros He.
  apply andb_prop in He as [He He2]. apply andb_prop in He as [He0 He1].
  cbn [map]. unfold vstack_ones.
  rewrite length_map, length_meshgrid_xy, !length_arange_half by assumption.
  lia.
Qed.

Lemma sub_length3 (a b : vec) :
  length a = 3%nat -> length b = 3%nat ->
  exists x y z, sub a b = Some [x; y; z].
Proof.
  intros Ha Hb.
  destruct a as [|a0 [|a1 [|a2 [|? ?]]]]; try discriminate.
  destruct b as [|b0 [|b1 [|b2 [|? ?]]]]; try discriminate.
  now eexists _, _, _.
Qed.

Lemma resample_volume_returns interp vol r t order :
  even_shape vol = true ->
  (forall tv, t = Some tv -> length tv = 3%nat) ->
  exists v', resample_volume interp vol r t None order = Some v'.
Proof.
  intros He Ht. unfold resample_volume.
  destruct r as [m|], t as [tv|]; try (now eexists).
  all: pose proof (length_default_grid vol He) as Hg.
  all: assert (Hl : length (half_shape vol) = 3%nat)
    by (unfold half_shape; now destruct (shape vol) as [[? ?] ?]).
  all: destruct (half_shape vol) as [|ox [|oy [|oz [|? ?]]]]; try contradiction.
  all: cbv zeta.
  - destruct (sub_length3 tv [ox; oy; oz] (Ht _ eq_refl) Hl) as (x & y & z & ->).
    cbn [set_col3 eye4 option_map].
    rewrite length_map, Hg, Nat.eqb_refl. now eexists.
  - destruct m as [m|m [[c0 c1] c2]];
      cbn [rot_columns Nat.eqb rot_column3 v3list sub broadcast2 length
           option_map].
    all: rewrite length_map, Hg, Nat.eqb_refl; now eexists.
  - destruct (sub_length3 tv [ox; oy; oz] (Ht _ eq_refl) Hl) as (x & y & z & ->).
    cbn [set_col3 eye4 option_map].
    rewrite length_map, Hg, Nat.eqb_refl. now eexists.
Qed.

Lemma resample_volume_keeps_shape interp vol r t ori order v' :
  resample_volume interp vol r t ori order = Some v' ->
  shape v' = shape vol /\ (wf vol -> wf v').
Proof.
  intros H.
  destruct (resample_volume_some _ _ _ _ _ _ _ H)
    as [(_ & _ & ->)|(coords & Hlen & ->)].
  - now rewrite copy_eq.
  - split; [reflexivity|]. intros _. unfold wf, map_coordinates, size.
    cbn [data shape]. now rewrite length_map.
Qed.

(** C4.  Whenever [resample_volume] returns a volume, for any rotation,
    translation, origin and spline order, that volume has exactly the shape
    of the input (and as many entries as the shape asks for, if the input
    does); and it does return one with the default origin on a box with
    even dimensions, for any rotation and any absent or three-component
    translation. *)
Theorem resample_volume_shape :
  forall interp vol r t order,
    (forall ori v',
        resample_volume interp vol r t ori order = Some v' ->
        shape v' = shape vol /\ (wf vol -> wf v')) /\
    (even_shape vol = true ->
     (forall tv, t = Some tv -> length tv = 3%nat) ->
     exists v', resample_volume interp vol r t None order = Some v'
                /\ shape v' = shape vol).
Proof.
  intros interp vol r t order.
  assert (H1 : forall ori v',
             resample_volume interp vol r t ori order = Some v' ->
             shape v' = shape vol /\ (wf vol -> wf v'))
    by (intros ori v'; apply resample_volume_keeps_shape).
  split; [exact H1|].
  intros He Ht.
  destruct (resample_volume_returns interp vol r t order He Ht) as [v' Hv].
  exists v'. split; [exact Hv|]. now apply (H1 None).
Qed.

(** The guarantee at a cubic 2x2x2 volume, an identity rotation and
    spline order 0. *)
Lemma resample_volume_shape_witness :
  exists v',
    resample_volume nearest cube8 (Some (Rot3x3 eye3)) None None 0 = Some v'
    /\ shape v' = (2, 2, 2)%nat.
Proof.
  destruct (resample_volume_shape nearest cube8 (Some (Rot3x3 eye3)) None 0%nat)
    as [_ H].
  apply H.
  - reflexivity.
  - intros tv Htv. discriminate Htv.
Defined.

(** ** The embedded translation column of a 3x4 matrix *)

(** C8.  What the code does with a 3x4 matrix and no translation
    argument: the value derived from the fourth column is bound to [t] and
    never stored into [th], so the result is the one of the bare 3x3
    block, for every volume, origin and order.  On the 2x2x2 volume the
    column (1,0,0) leaves the output of the plain identity matrix, whereas
    the same vector passed as [t] changes it. *)
Theorem resample_volume_embedded_translation_unused :
  (forall interp vol m c ori order,
      resample_volume interp vol (Some (Rot3x4 m c)) None ori order
      = resample_volume interp vol (Some (Rot3x3 m)) None ori order) /\
  resample_volume nearest cube8 (Some (Rot3x4 eye3 (1, 0, 0))) None None 0
  = Some (mkarray (2, 2, 2)%nat [1; 2; 5; 6; 3; 4; 7; 8]) /\
  resample_volume nearest cube8 (Some (Rot3x3 eye3)) (Some [1; 0; 0]) None 0
  = Some (mkarray (2, 2, 2)%nat [0; 0; 0; 0; 0; 1; 0; 5]).
Proof.
  split; [|split; vm_compute; reflexivity].
  intros interp vol m [[c0 c1] c2] ori order. unfold resample_volume.
  destruct (match ori with Some o => o | None => half_shape vol end)
    as [|ox [|oy [|oz [|? ?]]]]; reflexivity.
Qed.

(** ** The two ways of applying a rotation *)

(** C3.  The two paths at the identity rotation about the box centre of
    the 2x2x2 volume, order 0: the Euler path returns the input, the
    coordinate-grid path returns the input with its first two axes
    exchanged (with or without the translation argument set to the
    origin), so the outputs differ. *)
Theorem euler_path_differs_from_grid_path :
  euler_branch nearest cube8 eye3 [1; 1; 1] 0 = Some cube8 /\
  resample_volume nearest cube8 (Some (Rot3x3 eye3)) None (Some [1; 1; 1]) 0
  = Some (mkarray (2, 2, 2)%nat [1; 2; 5; 6; 3; 4; 7; 8]) /\
  resample_volume nearest cube8 (Some (Rot3x3 eye3)) (Some [1; 1; 1])
                  (Some [1; 1; 1]) 0
  = Some (mkarray (2, 2, 2)%nat [1; 2; 5; 6; 3; 4; 7; 8]) /\
  euler_branch nearest cube8 eye3 [1; 1; 1] 0
  <> resample_volume nearest cube8 (Some (Rot3x3 eye3)) None (Some [1; 1; 1]) 0.
Proof.
  repeat split; try (vm_compute; reflexivity).
  vm_compute. discriminate.
Qed.

(** ** The log does not steer the run *)

Lemma ends_ret {A} (a : A) : ends (ret a) (Val a).
Proof. now intros l. Qed.

Lemma ends_return {A} (c : Z) : ends (@return_ A c) (Return c).
Proof. now intros l. Qed.

Lemma ends_raise {A} : ends (@raise A) Raise.
Proof. now intros l. Qed.

Lemma ends_call {A} (o : option A) : ends (call o) (rcall o).
Proof. now destruct o; intros l. Qed.

Lemma ends_emit (m : msg) : ends (emit m) (Val tt).
Proof. now intros l. Qed.

Lemma ends_when (b : bool) (m : M unit) :
  ends m (Val tt) -> ends (when b m) (Val tt).
Proof. destruct b; [trivial | intros _ l; reflexivity]. Qed.

Lemma ends_bind {A B} (m : M A) (k : A -> M B) r (k' : A -> result B) :
  ends m r -> (forall a, ends (k a) (k' a)) -> ends (bind m k) (rbind r k').
Proof.
  intros Hm Hk l. unfold bind. specialize (Hm l).
  destruct (m l) as [[a| c |] l']; cbn in Hm; subst r; cbn; auto.
  apply Hk.
Qed.

Lemma ends_then {A} (m : M unit) (k : M A) r :
  ends m (Val tt) -> ends k r -> ends (bind m (fun _ => k)) r.
Proof.
  intros Hm Hk. apply (ends_bind m (fun _ => k) (Val tt) (fun _ => r)); auto.
Qed.

Create HintDb ends.
#[local] Hint Resolve ends_ret ends_return ends_raise ends_call ends_emit
  ends_when : ends.

Ltac ends_step :=
  first [ apply ends_ret | apply ends_return | apply ends_raise
        | apply ends_call
        | apply ends_then; [auto with ends|]
        | apply ends_bind; [|intro] ].

Lemma main_outcome (E : Env) (classify : ndarray -> option bool) (a : args) :
  ends (main_body E classify a) (outcome E classify a).
Proof.
  unfold main_body, outcome.
  apply ends_bind; [apply ends_call|intros dh].
  cbv zeta.
  apply ends_bind.
  { unfold normalized. destruct (normalize a); [|apply ends_ret].
    apply ends_bind.
    - destruct (reference a); [|apply ends_ret].
      apply ends_bind; [apply ends_call|intro; apply ends_ret].
    - intros sigma. apply ends_then; auto with ends. }
  intros final.
  remember (resolve_apix a (snd dh)) as p0 eqn:Hp0.
  match goal with
  | |- ends _ ?R =>
      let R' := eval pattern p0 in R in
      match R' with ?f _ => apply (ends_bind _ _ (Val p0) f) end
  end.
  { subst p0. unfold resolve_apix. destruct (apix a); [apply ends_ret|].
    apply ends_then; auto with ends. }
  clear p0 Hp0. intros p. do 3 (apply ends_then; [auto with ends|]).
  apply ends_bind.
  { unfold resolve_origin, box_of. destruct (origin a) as [s|].
    - destruct (parse_floats E s) as [l|].
      + destruct (all_lt _ _) as [[|]|]. all: repeat ends_step.
      + repeat ends_step.
    - repeat ends_step. }
  intros o.
  apply ends_bind; [apply ends_call|intros mask].
  apply ends_then; [auto with ends|].
  apply ends_bind.
  { unfold matrix_step. destruct (matrix a) as [s|]; [|apply ends_ret].
    destruct (json_matrix E s); repeat ends_step. }
  intros d1. apply ends_bind.
  { unfold target_step. destruct (target a) as [s|]; [|apply ends_ret].
    destruct (parse_floats E s); repeat ends_step. }
  intros d2. apply ends_bind.
  { unfold euler_step. destruct (euler a) as [s|]; [|apply ends_ret].
    destruct (parse_floats E s) as [l|]; [|repeat ends_step].
    destruct (map (deg2rad E) l) as [|? [|? [|? [|? ?]]]]; repeat ends_step. }
  intros d3. apply ends_bind.
  { unfold translate_step. destruct (translate a) as [s|]; [|apply ends_ret].
    destruct (parse_floats E s); repeat ends_step. }
  intros d. apply ends_ret.
Qed.

Lemma main_fst (E : Env) (a : args) : fst (main E a) = outcome E ismask a.
Proof. apply main_outcome. Qed.

Lemma rbind_assoc {A B C} (r : result A) (f : A -> result B) (g : B -> result C) :
  rbind (rbind r f) g = rbind r (fun x => rbind (f x) g).
Proof. now destruct r. Qed.

(** The outcome in terms of the four pose steps taken together. *)
Lemma outcome_pose (E : Env) classify (a : args) (dat : ndarray) (hdr : header) :
  read E (input a) = Some (dat, hdr) ->
  outcome E classify a =
  rbind (normalized E a dat) (fun final =>
  rbind (resolve_origin E a hdr (resolve_apix a hdr)) (fun o =>
  rbind (rcall (classify dat)) (fun _ =>
  rbind (pose_steps E a (resolve_apix a hdr) o dat) (fun d =>
  Val (mkwritten (output a) (match final with Some f => f | None => d end)
                 (resolve_apix a hdr)))))).
Proof.
  intros Hr. unfold outcome, pose_steps. rewrite Hr. cbn [rcall rbind fst snd].
  destruct (normalized E a dat) as [final| |]; cbn [rbind]; try reflexivity.
  destruct (resolve_origin E a hdr (resolve_apix a hdr)) as [o| |];
    cbn [rbind]; try reflexivity.
  destruct (rcall (classify dat)); cbn [rbind]; try reflexivity.
  destruct (matrix_step E a dat) as [d1| |]; cbn [rbind]; try reflexivity.
  destruct (target_step E a _ o d1) as [d2| |]; cbn [rbind]; try reflexivity.
  destruct (euler_step E a o d2) as [d3| |]; cbn [rbind]; reflexivity.
Qed.

(** ** Normalisation *)

Lemma normalized_true (E : Env) (a : args) (dat : ndarray) :
  normalize a = true ->
  normalized E a dat
  = rbind (rcall (sigma_of E a dat))
          (fun sigma => Val (Some (zscore dat (np_mean E dat) sigma))).
Proof.
  intros Hn. unfold normalized, sigma_of. rewrite Hn.
  destruct (reference a) as [p|]; [|reflexivity].
  now destruct (read E p).
Qed.

(** What a normalising run writes, in terms of [zscore]. *)
Lemma normalized_run_written (E : Env) (a : args) (w : written) :
  normalize a = true -> fst (main E a) = Val w ->
  exists dat hdr sigma,
    read E (input a) = Some (dat, hdr) /\
    sigma_of E a dat = Some sigma /\
    w_data w = zscore dat (np_mean E dat) sigma.
Proof.
  intros Hn Hw. rewrite main_fst in Hw.
  destruct (read E (input a)) as [[dat hdr]|] eqn:Hr.
  2:{ unfold outcome in Hw. rewrite Hr in Hw. discriminate. }
  rewrite (outcome_pose E ismask a dat hdr Hr) in Hw.
  rewrite (normalized_true E a dat Hn) in Hw.
  destruct (sigma_of E a dat) as [sigma|] eqn:Hs; [|discriminate].
  exists dat, hdr, sigma. split; [reflexivity|]. split; [exact Hs|].
  cbn [rcall rbind] in Hw.
  destruct (resolve_origin _ _ _ _); try discriminate.
  destruct (rcall (ismask dat)); try discriminate.
  cbn [rbind] in Hw.
  destruct (pose_steps _ _ _ _ _); try discriminate.
  cbn [rbind] in Hw. now injection Hw as <-.
Qed.

Lemma sigma_of_source (E : Env) (a : args) (dat : ndarray) (sigma : Q) :
  sigma_of E a dat = Some sigma <->
  match reference a with
  | None => sigma = np_std E dat
  | Some p => exists ref rhdr, read E p = Some (ref, rhdr) /\ sigma = np_std E ref
  end.
Proof.
  unfold sigma_of. destruct (reference a) as [p|].
  - destruct (read E p) as [[ref rhdr]|]; cbn [option_map fst].
    + split.
      * intros [= <-]. now exists ref, rhdr.
      * intros (ref' & rhdr' & [= <- <-] & ->). reflexivity.
    + split; [discriminate|]. intros (? & ? & H & _). discriminate.
  - split; [now intros [= <-] | now intros ->].
Qed.

(** C10.  With normalisation requested, whatever [main] writes has the
    shape of the input and, voxel by voxel, the value
    [(x - mean(input)) / sigma] of the input voxel [x] as read, before any
    pose transform, where sigma is the deviation of the reference volume
    if one is named and of the input otherwise (sigma not zero; a zero
    deviation is outside the rational reading of the division).  A run
    that differs only in the requested pose transforms writes the same
    volume, and a run with default origin and no pose request does write
    it. *)
Theorem normalized_output_ignores_pose :
  forall (E : Env) (a : args),
    normalize a = true ->
    (forall w, fst (main E a) = Val w ->
       exists dat hdr sigma,
         read E (input a) = Some (dat, hdr) /\
         match reference a with
         | None => sigma = np_std E dat
         | Some p => exists ref rhdr,
                       read E p = Some (ref, rhdr) /\ sigma = np_std E ref
         end /\
         shape (w_data w) = shape dat /\
         (~ sigma == 0 ->
          data (w_data w)
          = map (fun x => (x - np_mean E dat) / sigma) (data dat))) /\
    (forall m t e tr w w',
       fst (main E a) = Val w ->
       fst (main E (with_pose a m t e tr)) = Val w' ->
       w_data w' = w_data w) /\
    (forall dat hdr sigma b,
       read E (input a) = Some (dat, hdr) ->
       match reference a with
       | None => sigma = np_std E dat
       | Some p => exists ref rhdr,
                     read E p = Some (ref, rhdr) /\ sigma = np_std E ref
       end ->
       ~ sigma == 0 ->
       ismask dat = Some b ->
       origin a = None -> no_pose a ->
       fst (main E a)
       = Val (mkwritten (output a)
                (mkarray (shape dat)
                         (map (fun x => (x - np_mean E dat) / sigma) (data dat)))
                (resolve_apix a hdr))).
Proof.
  intros E a Hn.
  split; [|split].
  - intros w Hw.
    destruct (normalized_run_written E a w Hn Hw)
      as (dat & hdr & sigma & Hr & Hs & Hd).
    exists dat, hdr, sigma. split; [exact Hr|].
    split; [now apply sigma_of_source|].
    rewrite Hd. split; [reflexivity|]. intros _. reflexivity.
  - intros m t e tr w w' Hw Hw'.
    destruct (normalized_run_written E a w Hn Hw)
      as (dat & hdr & sigma & Hr & Hs & ->).
    destruct (normalized_run_written E (with_pose a m t e tr) w' Hn Hw')
      as (dat' & hdr' & sigma' & Hr' & Hs' & ->).
    cbn [with_pose input] in Hr'. rewrite Hr in Hr'. injection Hr' as <- <-.
    unfold sigma_of in Hs'. cbn [with_pose reference] in Hs'.
    fold (sigma_of E a dat) in Hs'. rewrite Hs in Hs'. now injection Hs' as <-.
  - intros dat hdr sigma b Hr Hs _ Hm Ho (Hx & Ht & He & Htr).
    apply sigma_of_source in Hs.
    rewrite main_fst, (outcome_pose E ismask a dat hdr Hr).
    rewrite (normalized_true E a dat Hn), Hs, Hm.
    unfold resolve_origin, pose_steps, matrix_step, target_step, euler_step,
      translate_step.
    now rewrite Ho, Hx, Ht, He, Htr.
Qed.

(** The run of C10 on the two-valued 2x2x2 volume, mean 1 and deviation
    1: voxels 0 and 2 become -1 and 1. *)
Lemma normalized_output_ignores_pose_witness :
  fst (main (example_env two_level) (example_args true None None None None None))
  = Val (mkwritten "out.mrc"
           (mkarray (2, 2, 2)%nat [-1; 1; -1; 1; -1; 1; -1; 1]) 1).
Proof.
  etransitivity.
  - apply (proj2 (proj2 (normalized_output_ignores_pose
                           (example_env two_level)
                           (example_args true None None None None None)
                           eq_refl))
                 two_level header8 1 true); try reflexivity.
    + discriminate.
    + repeat split.
  - vm_compute. reflexivity.
Defined.

(** ** Order of the pose steps *)

Lemma ismask_defined_by_shape (d d' : ndarray) :
  shape d' = shape d -> given (ismask d') = given (ismask d).
Proof.
  unfold ismask, planes_from. intros ->.
  destruct (shape d) as [[n0 n1] n2]. now destruct n2.
Qed.

Lemma affine_transform_shape interp d m off order d' :
  affine_transform interp d m off order = Some d' -> shape d' = shape d.
Proof.
  unfold affine_transform.
  destruct off as [|? [|? [|? [|? ?]]]]; try discriminate.
  now intros [= <-].
Qed.

Lemma shift_shape interp d s order d' :
  shift interp d s order = Some d' -> shape d' = shape d.
Proof.
  unfold shift.
  destruct s as [|? [|? [|? [|? ?]]]]; try discriminate.
  now intros [= <-].
Qed.

Lemma matrix_step_shape E a d d' :
  matrix_step E a d = Val d' -> shape d' = shape d.
Proof.
  unfold matrix_step. destruct (matrix a) as [s|]; [|now intros [= <-]].
  destruct (json_matrix E s) as [r|]; [|discriminate].
  destruct (resample_volume _ _ _ _ _ _) eqn:H; [|discriminate].
  intros [= <-]. now apply resample_volume_keeps_shape in H.
Qed.

Lemma target_step_shape E a p o d d' :
  target_step E a p o d = Val d' -> shape d' = shape d.
Proof.
  unfold target_step. destruct (target a) as [s|]; [|now intros [= <-]].
  destruct (parse_floats E s) as [l|]; [|discriminate].
  destruct (isub _ _) as [tv|]; [|discriminate]. cbn [rcall rbind].
  destruct (vec2rot E tv) as [r|]; [|discriminate]. cbn [rcall rbind].
  destruct (resample_volume _ _ _ _ _ _) eqn:H; [|discriminate].
  intros [= <-]. now apply resample_volume_keeps_shape in H.
Qed.

Lemma euler_step_shape E a o d d' :
  euler_step E a o d = Val d' -> shape d' = shape d.
Proof.
  unfold euler_step, euler_branch. destruct (euler a) as [s|]; [|now intros [= <-]].
  destruct (parse_floats E s) as [l|]; [|discriminate].
  destruct (map (deg2rad E) l) as [|? [|? [|? [|? ?]]]]; try discriminate.
  destruct (dot3 _ _); [|discriminate].
  destruct (sub _ _); [|discriminate].
  destruct (affine_transform _ _ _ _ _) eqn:H; [|discriminate].
  intros [= <-]. now apply affine_transform_shape in H.
Qed.

Lemma translate_step_shape E a p o d d' :
  translate_step E a p o d = Val d' -> shape d' = shape d.
Proof.
  unfold translate_step. destruct (translate a) as [s|]; [|now intros [= <-]].
  destruct (parse_floats E s) as [l|]; [|discriminate].
  destruct (isub _ _) as [tv|]; [|discriminate]. cbn [rcall rbind].
  destruct (shift _ _ _ _) eqn:H; [|discriminate].
  intros [= <-]. now apply shift_shape in H.
Qed.

(** What a run without normalisation writes. *)
Lemma run_volume E a dat hdr :
  read E (input a) = Some (dat, hdr) ->
  normalize a = false ->
  written_volume (main E a)
  = match resolve_origin E a hdr (resolve_apix a hdr), ismask dat with
    | Val o, Some _ => to_option (pose_steps E a (resolve_apix a hdr) o dat)
    | _, _ => None
    end.
Proof.
  intros Hr Hn. unfold written_volume.
  rewrite main_fst, (outcome_pose E ismask a dat hdr Hr).
  unfold normalized. rewrite Hn. cbn [rbind].
  destruct (resolve_origin _ _ _ _); cbn [rbind]; try reflexivity.
  destruct (ismask dat); cbn [rcall rbind]; try reflexivity.
  now destruct (pose_steps _ _ _ _ _).
Qed.

Lemma rbind_val {A} (r : result A) : rbind r (fun x => Val x) = r.
Proof. now destruct r. Qed.

Lemma read_with_file E p d hdr : read (with_file E p d hdr) p = Some (d, hdr).
Proof. cbn. now rewrite String.eqb_refl. Qed.

Ltac single_run E a d hdr Hn :=
  match goal with
  | |- written_volume (main ?E' ?a') = _ =>
      rewrite (run_volume E' a' d hdr (read_with_file _ _ _ _) Hn)
  end;
  match goal with
  | |- context [resolve_origin ?E' ?a' hdr ?p'] =>
      change (resolve_origin E' a' hdr p')
        with (resolve_origin E a hdr (resolve_apix a hdr));
      change p' with (resolve_apix a hdr)
  end;
  destruct (resolve_origin E a hdr (resolve_apix a hdr)) as [o| |];
  try reflexivity;
  destruct (ismask d); try reflexivity;
  unfold pose_steps, matrix_step, target_step, euler_step, translate_step;
  cbn [with_pose only_matrix only_target only_euler only_translate matrix
       target euler translate rbind with_file parse_floats json_matrix
       interp vec2rot deg2rad euler2rot spline_order];
  now rewrite ?rbind_val.

(** A run on [d] that requests a single mechanism performs that step. *)
Lemma only_matrix_run E a d hdr :
  normalize a = false ->
  written_volume (main (with_file E (input a) d hdr) (only_matrix a))
  = match resolve_origin E a hdr (resolve_apix a hdr), ismask d with
    | Val o, Some _ => to_option (matrix_step E a d)
    | _, _ => None
    end.
Proof. intros Hn. single_run E a d hdr Hn. Qed.

Lemma only_target_run E a d hdr :
  normalize a = false ->
  written_volume (main (with_file E (input a) d hdr) (only_target a))
  = match resolve_origin E a hdr (resolve_apix a hdr), ismask d with
    | Val o, Some _ => to_option (target_step E a (resolve_apix a hdr) o d)
    | _, _ => None
    end.
Proof. intros Hn. single_run E a d hdr Hn. Qed.

Lemma only_euler_run E a d hdr :
  normalize a = false ->
  written_volume (main (with_file E (input a) d hdr) (only_euler a))
  = match resolve_origin E a hdr (resolve_apix a hdr), ismask d with
    | Val o, Some _ => to_option (euler_step E a o d)
    | _, _ => None
    end.
Proof. intros Hn. single_run E a d hdr Hn. Qed.

Lemma only_translate_run E a d hdr :
  normalize a = false ->
  written_volume (main (with_file E (input a) d hdr) (only_translate a))
  = match resolve_origin E a hdr (resolve_apix a hdr), ismask d with
    | Val o, Some _ => to_option (translate_step E a (resolve_apix a hdr) o d)
    | _, _ => None
    end.
Proof. intros Hn. single_run E a d hdr Hn. Qed.

Lemma given_ismask_some d d' b :
  shape d' = shape d -> ismask d = Some b -> exists b', ismask d' = Some b'.
Proof.
  intros Hs Hb. apply ismask_defined_by_shape in Hs. rewrite Hb in Hs.
  destruct (ismask d') as [b'|]; [now exists b' | discriminate].
Qed.

(** C1, as the code has it.  Without normalisation, what [main] writes for
    any combination of the four pose requests is what four successive runs
    write, each requesting one mechanism and reading the volume written by
    the previous one: explicit matrix, then target, then Euler angles, then
    translation (a mechanism that is not requested leaves the volume as it
    is).  A failure of any step is a failure of the whole run. *)
Theorem pose_steps_in_fixed_order :
  forall (E : Env) (a : args) (dat : ndarray) (hdr : header),
    normalize a = false ->
    read E (input a) = Some (dat, hdr) ->
    written_volume (main E a)
    = and_then (written_volume (main (with_file E (input a) dat hdr)
                                     (only_matrix a))) (fun d1 =>
      and_then (written_volume (main (with_file E (input a) d1 hdr)
                                     (only_target a))) (fun d2 =>
      and_then (written_volume (main (with_file E (input a) d2 hdr)
                                     (only_euler a))) (fun d3 =>
      written_volume (main (with_file E (input a) d3 hdr)
                           (only_translate a))))).
Proof.
  intros E a dat hdr Hn Hr.
  rewrite (run_volume E a dat hdr Hr Hn), only_matrix_run by assumption.
  destruct (resolve_origin E a hdr (resolve_apix a hdr)) as [o| |] eqn:Ho;
    try reflexivity.
  destruct (ismask dat) as [b|] eqn:Hb; [|reflexivity].
  unfold pose_steps.
  destruct (matrix_step E a dat) as [d1| |] eqn:H1; try reflexivity.
  cbn [rbind to_option and_then].
  rewrite only_target_run, Ho by assumption.
  destruct (given_ismask_some dat d1 b (matrix_step_shape _ _ _ _ H1) Hb)
    as [b1 Hb1].
  rewrite Hb1.
  destruct (target_step E a (resolve_apix a hdr) o d1) as [d2| |] eqn:H2;
    try reflexivity.
  cbn [rbind to_option and_then].
  rewrite only_euler_run, Ho by assumption.
  destruct (given_ismask_some d1 d2 b1 (target_step_shape _ _ _ _ _ _ H2) Hb1)
    as [b2 Hb2].
  rewrite Hb2.
  destruct (euler_step E a o d2) as [d3| |] eqn:H3; try reflexivity.
  cbn [rbind to_option and_then].
  rewrite only_translate_run, Ho by assumption.
  destruct (given_ismask_some d2 d3 b2 (euler_step_shape _ _ _ _ _ H3) Hb2)
    as [b3 Hb3].
  now rewrite Hb3.
Qed.

Lemma pose_steps_in_fixed_order_witness :
  written_volume (main (example_env cube8) all_four)
  = and_then (written_volume (main (with_file (example_env cube8) "in.mrc" cube8 header8)
                                   (only_matrix all_four))) (fun d1 =>
    and_then (written_volume (main (with_file (example_env cube8) "in.mrc" d1 header8)
                                   (only_target all_four))) (fun d2 =>
    and_then (written_volume (main (with_file (example_env cube8) "in.mrc" d2 header8)
                                   (only_euler all_four))) (fun d3 =>
    written_volume (main (with_file (example_env cube8) "in.mrc" d3 header8)
                         (only_translate all_four))))).
Proof.
  apply (pose_steps_in_fixed_order (example_env cube8) all_four cube8 header8);
    reflexivity.
Defined.

(** C1 as stated fails once normalisation is requested: with a
    translation by (2,1,1) about the default origin (1,1,1), the working
    volume after the translation step is the shifted input, but the file
    receives the z-scored input. *)
Lemma written_volume_not_final_working_volume :
  let E := example_env two_level in
  let a := example_args true None None None (Some "2,1,1"%string) None in
  pose_steps E a 1 [1; 1; 1] two_level
  = Val (mkarray (2, 2, 2)%nat [0; 2; 0; 2; 0; 0; 0; 0]) /\
  written_volume (main E (example_args false None None None (Some "2,1,1"%string) None))
  = Some (mkarray (2, 2, 2)%nat [0; 2; 0; 2; 0; 0; 0; 0]) /\
  written_volume (main E a) = Some (zscore two_level 1 1) /\
  written_volume (main E a)
  <> Some (mkarray (2, 2, 2)%nat [0; 2; 0; 2; 0; 0; 0; 0]).
Proof.
  repeat split; try (vm_compute; reflexivity).
  vm_compute. discriminate.
Qed.

(** ** Origin resolution *)

Lemma not_below_iff (a : Q) (n : Z) :
  negb (Qle_bool 0 (a - inject_Z n)) = true <-> a < inject_Z n.
Proof.
  rewrite negb_true_iff, <- not_true_iff_false, Qle_bool_iff.
  unfold Qminus. rewrite <- Qle_minus_iff. split.
  - apply Qnot_le_lt.
  - apply Qlt_not_le.
Qed.

Lemma all_lt_3 (a b c : Q) (n0 n1 n2 : Z) :
  exists r, all_lt [a; b; c] [n0; n1; n2] = Some r /\
            (r = true <-> a < inject_Z n0 /\ b < inject_Z n1 /\ c < inject_Z n2).
Proof.
  eexists. split; [reflexivity|].
  cbn [forallb map combine fst snd].
  rewrite !andb_true_iff, !not_below_iff. tauto.
Qed.

(** C5.  For a run that has read its input (and reference), with pixel
    size [p]: a supplied origin x,y,z is rejected with exit status 1, and
    nothing is written, as soon as one of x/p, y/p, z/p reaches the box
    dimension of its axis; if all three are strictly below their box
    dimensions, however negative, the run goes on with the origin
    (x/p, y/p, z/p); with no origin supplied it goes on with the box
    dimensions halved (integer halves, as the header holds integers). *)
Theorem origin_validation :
  forall (E : Env) (a : args) (dat : ndarray) (hdr : header) final,
    read E (input a) = Some (dat, hdr) ->
    normalized E a dat = Val final ->
    let p := resolve_apix a hdr in
    (forall s x y z,
        origin a = Some s -> parse_floats E s = Some [x; y; z] ->
        ((inject_Z (nx hdr) <= x / p \/ inject_Z (ny hdr) <= y / p
          \/ inject_Z (nz hdr) <= z / p) ->
         fst (main E a) = Return 1%Z /\ written_volume (main E a) = None) /\
        ((x / p < inject_Z (nx hdr) /\ y / p < inject_Z (ny hdr)
          /\ z / p < inject_Z (nz hdr)) ->
         fst (main E a)
         = continue_from_origin E a dat hdr final [x / p; y / p; z / p])) /\
    (origin a = None ->
     fst (main E a)
     = continue_from_origin E a dat hdr final
         [inject_Z (nx hdr / 2); inject_Z (ny hdr / 2); inject_Z (nz hdr / 2)]).
Proof.
  intros E a dat hdr final Hr Hf p.
  assert (Hm : fst (main E a)
               = rbind (resolve_origin E a hdr p)
                       (continue_from_origin E a dat hdr final)).
  { rewrite main_fst, (outcome_pose E ismask a dat hdr Hr), Hf. reflexivity. }
  split.
  - intros s x y z Ho Hp.
    assert (Hres : resolve_origin E a hdr p
                   = match all_lt [x / p; y / p; z / p] (box_of hdr) with
                     | Some true => Val [x / p; y / p; z / p]
                     | _ => Return 1%Z
                     end).
    { unfold resolve_origin. now rewrite Ho, Hp. }
    destruct (all_lt_3 (x / p) (y / p) (z / p) (nx hdr) (ny hdr) (nz hdr))
      as (r & Hall & Hiff).
    unfold box_of in Hres. rewrite Hall in Hres.
    split.
    + intros Hout.
      assert (r = false) as ->.
      { destruct r; [|reflexivity]. destruct Hiff as [Hiff _].
        destruct (Hiff eq_refl) as (Hx & Hy & Hz).
        destruct Hout as [H|[H|H]]; exfalso;
          [ apply (Qlt_not_le _ _ Hx H) | apply (Qlt_not_le _ _ Hy H)
          | apply (Qlt_not_le _ _ Hz H) ]. }
      unfold written_volume. rewrite Hm, Hres. split; reflexivity.
    + intros Hin. apply Hiff in Hin. subst r. now rewrite Hm, Hres.
  - intros Ho. rewrite Hm. unfold resolve_origin. now rewrite Ho.
Qed.

(** Origins on the 2x2x2 box with pixel size 1: (1,2,1) is rejected,
    (1,-7,1) is accepted. *)
Lemma origin_validation_witness :
  (fst (main (example_env cube8)
             (example_args false (Some "1,2,1"%string) None None None None))
   = Return 1%Z) /\
  (fst (main (example_env cube8)
             (example_args false (Some "1,-7,1"%string) None None None None))
   = Val (mkwritten "out.mrc" cube8 1)).
Proof.
  split.
  - refine (proj1 (proj1 (proj1 (origin_validation (example_env cube8)
             (example_args false (Some "1,2,1"%string) None None None None)
             cube8 header8 None eq_refl eq_refl)
             "1,2,1"%string 1 2 1 eq_refl eq_refl) _)).
    right. left. vm_compute. discriminate.
  - etransitivity.
    + refine (proj2 (proj1 (origin_validation (example_env cube8)
             (example_args false (Some "1,-7,1"%string) None None None None)
             cube8 header8 None eq_refl eq_refl)
             "1,-7,1"%string 1 (-7) 1 eq_refl eq_refl) _).
      repeat split.
    + reflexivity.
Defined.

(** ** The origin seen by the explicit-matrix step *)

Lemma matrix_only_written E a o w :
  fst (main E (with_origin (only_matrix a) o)) = Val w ->
  exists dat hdr final d,
    read E (input a) = Some (dat, hdr) /\
    normalized E a dat = Val final /\
    matrix_step E a dat = Val d /\
    w_data w = match final with Some f => f | None => d end.
Proof.
  intros Hw. rewrite main_fst in Hw.
  destruct (read E (input a)) as [[dat hdr]|] eqn:Hr.
  2:{ unfold outcome in Hw. cbn [with_origin only_matrix with_pose input] in Hw.
      rewrite Hr in Hw. discriminate. }
  rewrite (outcome_pose E ismask (with_origin (only_matrix a) o) dat hdr Hr)
    in Hw.
  change (normalized E (with_origin (only_matrix a) o) dat)
    with (normalized E a dat) in Hw.
  destruct (normalized E a dat) as [final| |] eqn:Hf; try discriminate.
  cbn [rbind] in Hw.
  destruct (resolve_origin _ _ _ _) as [ov| |]; try discriminate.
  cbn [rbind] in Hw.
  destruct (rcall (ismask dat)); try discriminate.
  cbn [rbind] in Hw.
  change (pose_steps E (with_origin (only_matrix a) o)
                     (resolve_apix (with_origin (only_matrix a) o) hdr) ov dat)
    with (rbind (matrix_step E a dat) (fun d => Val d)) in Hw.
  rewrite rbind_val in Hw.
  destruct (matrix_step E a dat) as [d| |] eqn:Hd; try discriminate.
  cbn [rbind] in Hw. injection Hw as <-.
  exists dat, hdr, final, d. repeat split; assumption.
Qed.

(** C9.  What the code does: the explicit-matrix step calls
    [resample_volume] with [ori=None], so two runs that request only a
    matrix and differ in the origin supplied by the user write the same
    volume. *)
Theorem explicit_matrix_ignores_origin :
  forall (E : Env) (a : args) (o1 o2 : option string) (d1 d2 : ndarray),
    written_volume (main E (with_origin (only_matrix a) o1)) = Some d1 ->
    written_volume (main E (with_origin (only_matrix a) o2)) = Some d2 ->
    d1 = d2.
Proof.
  intros E a o1 o2 d1 d2 H1 H2. unfold written_volume in H1, H2.
  destruct (fst (main E (with_origin (only_matrix a) o1))) as [w1| |] eqn:Hw1;
    try discriminate.
  destruct (fst (main E (with_origin (only_matrix a) o2))) as [w2| |] eqn:Hw2;
    try discriminate.
  injection H1 as <-. injection H2 as <-.
  destruct (matrix_only_written E a o1 w1 Hw1)
    as (dat & hdr & final & d & Hr & Hf & Hd & ->).
  destruct (matrix_only_written E a o2 w2 Hw2)
    as (dat' & hdr' & final' & d' & Hr' & Hf' & Hd' & ->).
  rewrite Hr in Hr'. injection Hr' as <- <-.
  rewrite Hf in Hf'. injection Hf' as <-.
  rewrite Hd in Hd'. now injection Hd' as <-.
Qed.

(** The identity matrix on [cube8] with the origin (0.5, 1.75, 1) and with
    the default origin: the same file, although [resample_volume] about
    the supplied origin would give another volume. *)
Lemma explicit_matrix_ignores_origin_witness :
  written_volume (main (example_env cube8)
                       (example_args false (Some "0.5,1.75,1"%string) None None
                                     None identity_json))
  = written_volume (main (example_env cube8)
                         (example_args false None None None None identity_json))
  /\ written_volume (main (example_env cube8)
                          (example_args false (Some "0.5,1.75,1"%string) None None
                                        None identity_json))
     = Some (mkarray (2, 2, 2)%nat [1; 2; 5; 6; 3; 4; 7; 8])
  /\ resample_volume nearest cube8 (Some (Rot3x3 eye3)) None
                     (Some [1 # 2; 7 # 4; 1]) 0
     = Some (mkarray (2, 2, 2)%nat [1; 2; 3; 4; 0; 0; 0; 0]).
Proof.
  split; [|split; vm_compute; reflexivity].
  pose (a := example_args false None None None None identity_json).
  assert (H1 : written_volume (main (example_env cube8)
                 (with_origin (only_matrix a) (Some "0.5,1.75,1"%string)))
               = Some (mkarray (2, 2, 2)%nat [1; 2; 5; 6; 3; 4; 7; 8]))
    by (vm_compute; reflexivity).
  assert (H2 : written_volume (main (example_env cube8)
                 (with_origin (only_matrix a) None))
               = Some (mkarray (2, 2, 2)%nat [1; 2; 5; 6; 3; 4; 7; 8]))
    by (vm_compute; reflexivity).
  change (written_volume (main (example_env cube8)
                 (with_origin (only_matrix a) (Some "0.5,1.75,1"%string)))
          = written_volume (main (example_env cube8)
                 (with_origin (only_matrix a) None))).
  etransitivity; [exact H1|]. symmetry. etransitivity; [exact H2|].
  symmetry.
  exact (f_equal Some
           (explicit_matrix_ignores_origin (example_env cube8) a _ _ _ _ H1 H2)).
Defined.

(** ** Standard-pose target *)

Lemma In_bind {A B} (x : msg) (m : M A) (k : A -> M B) (v : A) (l : list msg) :
  fst (m l) = Val v ->
  (forall l', In x (snd (k v l'))) ->
  In x (snd (bind m k l)).
Proof.
  intros Hm Hk. unfold bind. destruct (m l) as [r l']. cbn in Hm. subst r.
  apply Hk.
Qed.

Ltac log_step v :=
  apply (In_bind _ _ _ v); [|intros ?].

Lemma target_run E a dat hdr s x y z ox oy oz r b :
  only_target_requested a ->
  read E (input a) = Some (dat, hdr) ->
  resolve_origin E a hdr (resolve_apix a hdr) = Val [ox; oy; oz] ->
  ismask dat = Some b ->
  target a = Some s ->
  parse_floats E s = Some [x; y; z] ->
  let p := resolve_apix a hdr in
  let d := [x / p - ox; y / p - oy; z / p - oz] in
  vec2rot E d = Some r ->
  fst (main E a)
  = rbind (rcall (resample_volume (interp E) dat (Some (Rot3x3 r)) (Some d)
                                  (Some [ox; oy; oz]) (spline_order a)))
          (fun v => Val (mkwritten (output a) v p)) /\
  In (InfoTargetPose (rot2euler_deg E r) (norm E d)) (snd (main E a)).
Proof.
  intros (Hn & Hm & He & Htr) Hr Ho Hb Ht Hp p d Hv.
  split.
  - rewrite main_fst, (outcome_pose E ismask a dat hdr Hr).
    unfold normalized. rewrite Hn, Ho, Hb. cbn [rbind rcall].
    unfold pose_steps, matrix_step, target_step, euler_step, translate_step.
    rewrite Hm, Ht, Hp, He, Htr. cbn [rbind rcall isub div_scalar map length
      Nat.eqb combine fst snd].
    fold p. fold d. rewrite Hv. cbn [rbind rcall].
    now destruct (resample_volume _ _ _ _ _ _).
  - unfold main, main_body.
    log_step (dat, hdr); [now rewrite Hr|]. cbn [fst snd].
    log_step (@None ndarray); [now rewrite Hn|].
    log_step p; [unfold p, resolve_apix; now destruct (apix a)|].
    do 3 (log_step tt; [apply ends_when, ends_emit|]).
    log_step [ox; oy; oz].
    { unfold resolve_origin, box_of in Ho. fold p in Ho.
      destruct (origin a) as [s0|].
      - destruct (parse_floats E s0) as [l0|]; [|discriminate].
        destruct (all_lt _ _) as [[|]|]; try discriminate.
        now rewrite <- Ho.
      - now rewrite <- Ho. }
    log_step b; [now rewrite Hb|].
    log_step tt; [apply ends_when, ends_emit|].
    log_step dat; [now rewrite Hm|].
    rewrite Ht, Hp, He, Htr.
    unfold bind, call, emit, ret.
    cbn [isub div_scalar map length Nat.eqb combine fst snd].
    fold d. rewrite Hv. cbn [fst snd].
    destruct (resample_volume _ _ _ _ _ _); cbn [fst snd];
      apply in_or_app; right; left; reflexivity.
Qed.

(** X20.  The target step of [main].  For a target x,y,z, pixel size
    [p] and resolved origin (ox,oy,oz), write [d] for
    (x/p - ox, y/p - oy, z/p - oz), and suppose [vec2rot] returns [r] for
    [d].  Whatever the working volume, the step is the call of
    [resample_volume] with rotation [r], translation [d] and the resolved
    origin, so both a rotation and a translation are passed.  In a run
    without normalisation that requests only the target, this call on the
    input decides what is written, and the shift [norm(d)] is logged with
    the angles of [r]. *)
Theorem target_request_passes_rotation_and_translation :
  forall (E : Env) (a : args) (hdr : header) s x y z ox oy oz r,
    target a = Some s ->
    parse_floats E s = Some [x; y; z] ->
    let p := resolve_apix a hdr in
    let d := [x / p - ox; y / p - oy; z / p - oz] in
    vec2rot E d = Some r ->
    (forall working,
        target_step E a p [ox; oy; oz] working
        = rcall (resample_volume (interp E) working (Some (Rot3x3 r)) (Some d)
                                 (Some [ox; oy; oz]) (spline_order a))) /\
    (forall dat b,
        only_target_requested a ->
        read E (input a) = Some (dat, hdr) ->
        resolve_origin E a hdr p = Val [ox; oy; oz] ->
        ismask dat = Some b ->
        fst (main E a)
        = rbind (rcall (resample_volume (interp E) dat (Some (Rot3x3 r)) (Some d)
                                        (Some [ox; oy; oz]) (spline_order a)))
                (fun v => Val (mkwritten (output a) v p)) /\
        In (InfoTargetPose (rot2euler_deg E r) (norm E d)) (snd (main E a))).
Proof.
  intros E a hdr s x y z ox oy oz r Ht Hp p d Hv. split.
  - intros working. unfold target_step. rewrite Ht, Hp.
    cbn [rbind rcall isub div_scalar map length Nat.eqb combine fst snd].
    fold d. now rewrite Hv.
  - intros dat b Ho Hr Hres Hb.
    now apply (target_run E a dat hdr s x y z ox oy oz r b).
Qed.

(** The target (1,1,3) on the 2x2x2 volume with pixel size 1 and default
    origin (1,1,1): direction (0,0,2) along the view axis, shift 2. *)
Lemma target_request_passes_rotation_and_translation_witness :
  fst (main (example_env cube8)
            (example_args false None (Some "1,1,3"%string) None None None))
  = rbind (rcall (resample_volume nearest cube8 (Some (Rot3x3 eye3))
                                  (Some [1 / 1 - 1; 1 / 1 - 1; 3 / 1 - 1])
                                  (Some [1; 1; 1]) 0))
          (fun v => Val (mkwritten "out.mrc" v 1)) /\
  In (InfoTargetPose [0; 0; 0] (norm_exact [1 / 1 - 1; 1 / 1 - 1; 3 / 1 - 1]))
     (snd (main (example_env cube8)
                (example_args false None (Some "1,1,3"%string) None None None))).
Proof.
  exact (proj2 (target_request_passes_rotation_and_translation
                  (example_env cube8)
                  (example_args false None (Some "1,1,3"%string) None None None)
                  header8 "1,1,3"%string 1 1 3 1 1 1 eye3
                  eq_refl eq_refl eq_refl)
               cube8 true
               (conj eq_refl (conj eq_refl (conj eq_refl eq_refl)))
               eq_refl eq_refl eq_refl).
Defined.

Module TargetPoseFacts.
Import Reals Lra RNsatz.
Import TargetPose.
Local Open Scope R_scope.

Ltac pair_eq :=
  repeat match goal with |- (_, _) = (_, _) => apply f_equal2 end.

Lemma norm_pos (v : rvec) : v <> (0, 0, 0) -> 0 < euclidean_norm v.
Proof.
  destruct v as [[x y] z]. intros H. unfold euclidean_norm, rdot.
  apply sqrt_lt_R0.
  destruct (Req_dec x 0) as [-> | Hx]; [|nra].
  destruct (Req_dec y 0) as [-> | Hy]; [|nra].
  destruct (Req_dec z 0) as [-> | Hz]; [|nra].
  now exfalso.
Qed.

Lemma direction_unit (v : rvec) :
  v <> (0, 0, 0) -> rdot (direction v) (direction v) = 1.
Proof.
  intros H. pose proof (norm_pos v H) as Hn.
  unfold direction. destruct v as [[x y] z]. cbn [rscale rdot].
  assert (Hs : euclidean_norm (x, y, z) * euclidean_norm (x, y, z)
               = x * x + y * y + z * z).
  { unfold euclidean_norm, rdot. apply sqrt_sqrt. nra. }
  set (n := euclidean_norm (x, y, z)) in *.
  transitivity (/ n * / n * (x * x + y * y + z * z)); [ring|].
  rewrite <- Hs. field. lra.
Qed.

(** The contract can be met: [bisector_rotation] meets it for the axis
    (0,0,1), at every non-zero vector. *)
Lemma bisector_rotation_meets_contract :
  vec2rot_contract (0, 0, 1) bisector_rotation.
Proof.
  intros v H. pose proof (direction_unit v H) as Hu.
  unfold bisector_rotation. destruct (direction v) as [[a b] c].
  cbn [rdot] in Hu.
  destruct (Req_dec_T (1 + c) 0) as [Hc|Hc].
  - assert (c = -1) by lra. subst c.
    assert (a = 0) by nra. assert (b = 0) by nra. subst.
    split; [split|]; cbn; unfold reye; pair_eq; lra.
  - assert (Hk : / (1 + c) * (1 + c) = 1) by now apply Rinv_l.
    set (k := / (1 + c)) in *.
    split; [split|].
    + unfold rmat_mul, rtranspose, reye, rdot. pair_eq; nsatz.
    + unfold rdet. nsatz.
    + cbn. pair_eq; lra.
Qed.



End TargetPoseFacts.

(** ** The mask heuristic *)

Lemma unique_cons (x : Q) (l : list Q) :
  unique (x :: l) = x :: filter (differs x) (unique l).
Proof. reflexivity. Qed.

Lemma filter_id {A} (f : A -> bool) (l : list A) :
  (forall x, In x l -> f x = true) -> filter f l = l.
Proof.
  induction l as [|x l IH]; intros H; [reflexivity|].
  cbn [filter]. rewrite (H x (or_introl eq_refl)). f_equal.
  apply IH. intros y Hy. apply H. now right.
Qed.

Lemma filter_nil {A} (f : A -> bool) (l : list A) :
  (forall x, In x l -> f x = false) -> filter f l = [].
Proof.
  induction l as [|x l IH]; intros H; [reflexivity|].
  cbn [filter]. rewrite (H x (or_introl eq_refl)).
  apply IH. intros y Hy. apply H. now right.
Qed.

Lemma unique_incl (l : list Q) : forall x, In x (unique l) -> In x l.
Proof.
  induction l as [|y l IH]; intros x Hx; [contradiction|].
  rewrite unique_cons in Hx. destruct Hx as [->|Hx]; [now left|].
  right. apply IH. now apply filter_In in Hx.
Qed.

(** A list all of whose entries equal [c] has at most one distinct value. *)
Lemma unique_one (c : Q) (l : list Q) :
  (forall x, In x l -> x == c) -> (length (unique l) <= 1)%nat.
Proof.
  destruct l as [|y l]; intros H; [cbn; lia|].
  rewrite unique_cons, filter_nil; [cbn; lia|].
  intros x Hx. apply unique_incl in Hx.
  unfold differs. apply negb_false_iff, Qeq_bool_iff.
  rewrite (H y (or_introl eq_refl)), (H x (or_intror Hx)). reflexivity.
Qed.

Lemma filter_comm {A} (f g : A -> bool) (l : list A) :
  filter f (filter g l) = filter g (filter f l).
Proof.
  induction l as [|x l IH]; [reflexivity|].
  cbn [filter]. destruct (f x) eqn:Hf, (g x) eqn:Hg; cbn [filter];
    rewrite ?Hf, ?Hg, IH; reflexivity.
Qed.

(** Dropping the entries equal to [y] before or after removing repeats. *)
Lemma filter_unique (y : Q) (l : list Q) :
  filter (differs y) (unique l) = unique (filter (differs y) l).
Proof.
  induction l as [|x l IH]; [reflexivity|].
  rewrite unique_cons. cbn [filter].
  destruct (differs y x) eqn:Hyx.
  - rewrite unique_cons, <- IH. f_equal. apply filter_comm.
  - rewrite <- IH.
    assert (Hxy : x == y).
    { unfold differs in Hyx. apply negb_false_iff, Qeq_bool_iff in Hyx.
      now symmetry. }
    clear IH. induction (unique l) as [|z u IHu]; [reflexivity|].
    cbn [filter]. destruct (differs x z) eqn:Hxz; cbn [filter].
    + now rewrite IHu.
    + rewrite IHu.
      assert (differs y z = false) as ->; [|reflexivity].
      unfold differs in *. apply negb_false_iff, Qeq_bool_iff.
      apply negb_false_iff, Qeq_bool_iff in Hxz. now rewrite <- Hxy.
Qed.

(** Two values give at most two distinct entries. *)
Lemma unique_two (a b : Q) (l : list Q) :
  (forall x, In x l -> x == a \/ x == b) -> (length (unique l) <= 2)%nat.
Proof.
  destruct l as [|y l]; intros H; [cbn; lia|].
  rewrite unique_cons, filter_unique. cbn [length].
  apply le_n_S.
  assert (Hrest : forall c c', (y == c) -> (forall x, In x l -> x == c \/ x == c') ->
                               forall x, In x (filter (differs y) l) -> x == c').
  { intros c c' Hy Hl x Hx. apply filter_In in Hx as [Hin Hd].
    destruct (Hl x Hin) as [Hc|Hc]; [|exact Hc].
    unfold differs in Hd. apply negb_true_iff in Hd.
    assert (Qeq_bool y x = true) by (apply Qeq_bool_iff; now rewrite Hy, Hc).
    congruence. }
  destruct (H y (or_introl eq_refl)) as [Hy|Hy].
  - apply (unique_one b). apply (Hrest a b Hy).
    intros x Hx. apply H. now right.
  - apply (unique_one a). apply (Hrest b a Hy).
    intros x Hx. destruct (H x (or_intror Hx)); auto.
Qed.

Lemma In_firstn {A} (n : nat) (l : list A) (x : A) :
  In x (firstn n l) -> In x l.
Proof.
  revert l. induction n as [|n IH]; intros [|y l] H; try contradiction.
  destruct H as [->|H]; [now left | right; now apply IH].
Qed.

Lemma In_skipn {A} (n : nat) (l : list A) (x : A) :
  In x (skipn n l) -> In x l.
Proof.
  revert l. induction n as [|n IH]; intros [|y l] H; try contradiction;
    try exact H.
  right. now apply IH.
Qed.

Lemma planes_from_incl (vol : ndarray) (start step : nat) (sample : list Q) :
  planes_from vol start step = Some sample ->
  forall x, In x sample -> In x (data vol).
Proof.
  unfold planes_from. destruct (shape vol) as [[n0 n1] n2].
  destruct step as [|k]; [discriminate|]. intros [= <-] x Hx.
  apply in_flat_map in Hx as (i & _ & Hx).
  now apply In_firstn, In_skipn in Hx.
Qed.

Lemma ismask_sample (vol : ndarray) :
  ismask vol
  = let '(_, _, n2) := shape vol in
    option_map (fun sample => (length (unique sample) <? 100)%nat)
               (planes_from vol (n2 / 2) n2).
Proof. reflexivity. Qed.

(** The log of a run does not depend on the classification when the
    spline order is 0. *)
Lemma bind_ext {A B} (m : M A) (k k' : A -> M B) (l : list msg) :
  (forall a l', k a l' = k' a l') -> bind m k l = bind m k' l.
Proof.
  intros H. unfold bind. destruct (m l) as [[a| c |] l']; auto.
Qed.

Lemma main_body_classification (E : Env) (c1 c2 : ndarray -> option bool)
      (a : args) (l : list msg) :
  (forall d, given (c1 d) = given (c2 d)) ->
  fst (main_body E c1 a l) = fst (main_body E c2 a l) /\
  (spline_order a = 0%nat -> main_body E c1 a l = main_body E c2 a l).
Proof.
  intros Hc. split.
  - rewrite !main_outcome. unfold outcome.
    destruct (rcall (read E (input a))) as [dh| |]; cbn [rbind]; try reflexivity.
    destruct (normalized E a (fst dh)); cbn [rbind]; try reflexivity.
    destruct (resolve_origin _ _ _ _); cbn [rbind]; try reflexivity.
    specialize (Hc (fst dh)).
    now destruct (c1 (fst dh)), (c2 (fst dh)).
  - intros Ho. unfold main_body.
    do 7 (apply bind_ext; intros ? ?).
    specialize (Hc (fst a0)). rewrite Ho. cbn [Nat.eqb negb].
    unfold bind, call.
    destruct (c1 (fst a0)), (c2 (fst a0)); try discriminate; cbn;
      rewrite ?andb_false_r; reflexivity.
Qed.

Lemma unique_increasing (a n : nat) :
  unique (map (fun i => inject_Z (Z.of_nat i)) (seq a n))
  = map (fun i => inject_Z (Z.of_nat i)) (seq a n).
Proof.
  revert a. induction n as [|n IH]; intros a; [reflexivity|].
  cbn [seq map]. rewrite unique_cons, IH. f_equal.
  apply filter_id. intros x Hx.
  apply in_map_iff in Hx as (i & <- & Hi). apply in_seq in Hi.
  unfold differs. apply negb_true_iff, not_true_iff_false.
  intros H. apply Qeq_bool_iff in H. apply -> inject_Z_injective in H. lia.
Qed.

(** C7.  What the code does on the well-formed 20x50x50 volume
    [ramp_volume], whose 50,000 voxels all differ: the slice [vol[25::50]]
    of its 20 planes is empty, so no section of the volume is examined,
    no distinct value is counted, and the volume is classified as a
    mask. *)
Lemma ismask_accepts_50000_distinct_values :
  wf ramp_volume /\
  length (unique (data ramp_volume)) = 50000%nat /\
  ismask ramp_volume = Some true.
Proof.
  split; [|split].
  - unfold wf, ramp_volume, ramp. cbn [data]. rewrite length_map, length_seq.
    reflexivity.
  - unfold ramp_volume, ramp. cbn [data].
    now rewrite unique_increasing, length_map, length_seq.
  - vm_compute. reflexivity.
Qed.

(** X19.  [ismask] as the code has it.  It takes every [nz]-th plane
    along the first axis, starting at plane [nz/2], counts the distinct
    values in these planes and answers "mask" exactly when there are fewer
    than 100; hence a volume with at most two values is a mask, and a
    volume is not a mask only if the sampled planes themselves hold 100
    distinct values.  In [main] the answer changes neither the exit status
    nor what is written, and with spline order 0 it changes nothing at
    all, the log included. *)
Theorem ismask_heuristic :
  forall vol : ndarray,
    (forall sample,
        planes_from vol (depth vol / 2) (depth vol) = Some sample ->
        ismask vol = Some (length (unique sample) <? 100)%nat) /\
    (forall a b,
        depth vol <> 0%nat ->
        (forall x, In x (data vol) -> x == a \/ x == b) ->
        ismask vol = Some true) /\
    (ismask vol = Some false ->
     exists sample,
       planes_from vol (depth vol / 2) (depth vol) = Some sample /\
       (100 <= length (unique sample))%nat) /\
    (forall (E : Env) (a : args) (classify : ndarray -> option bool) l,
        (forall d, given (classify d) = given (ismask d)) ->
        fst (main_body E classify a l) = fst (main_body E ismask a l) /\
        (spline_order a = 0%nat ->
         main_body E classify a l = main_body E ismask a l)).
Proof.
  intros vol.
  assert (Hm : ismask vol
               = option_map (fun sample => (length (unique sample) <? 100)%nat)
                            (planes_from vol (depth vol / 2) (depth vol))).
  { unfold ismask, depth. now destruct (shape vol) as [[n0 n1] n2]. }
  repeat split.
  - intros sample Hs. now rewrite Hm, Hs.
  - intros a b Hd Hv. rewrite Hm.
    destruct (planes_from vol (depth vol / 2) (depth vol)) as [sample|] eqn:Hs.
    + cbn [option_map]. f_equal. apply Nat.ltb_lt.
      pose proof (unique_two a b sample) as H2.
      assert (length (unique sample) <= 2)%nat; [|lia].
      apply H2. intros x Hx. apply Hv. now apply (planes_from_incl _ _ _ _ Hs).
    + exfalso. unfold planes_from, depth in *.
      destruct (shape vol) as [[n0 n1] n2]. cbn [snd] in *.
      destruct n2; [now apply Hd | discriminate].
  - intros Hf. rewrite Hm in Hf.
    destruct (planes_from vol (depth vol / 2) (depth vol)) as [sample|];
      [|discriminate].
    exists sample. split; [reflexivity|].
    cbn [option_map] in Hf. injection Hf as Hf. now apply Nat.ltb_ge in Hf.
  - now apply main_body_classification.
  - now apply main_body_classification.
Qed.

(** The 20x20x20 volume of zeros and ones is a mask. *)
Lemma ismask_heuristic_witness : ismask mask20 = Some true.
Proof.
  apply (proj1 (proj2 (ismask_heuristic mask20)) 0 1).
  - discriminate.
  - intros x Hx. unfold mask20 in Hx. cbn [data] in Hx.
    apply in_map_iff in Hx as (i & <- & _).
    destruct (Nat.even i); [now left | now right].
Defined.

(** * Further properties of [resample_volume] *)

Lemma length_arange_half_any (n : nat) :
  length (arange (- inject_Z (Z.of_nat n / 2)) (inject_Z (Z.of_nat n / 2)))
  = (2 * (n / 2))%nat.
Proof.
  rewrite length_arange.
  assert (Hq : inject_Z (Z.of_nat n / 2) - - inject_Z (Z.of_nat n / 2)
               == inject_Z (2 * (Z.of_nat n / 2))).
  { generalize (Z.of_nat n / 2)%Z. intros h.
    unfold Qeq, Qminus, Qplus, Qopp, inject_Z. cbn [Qnum Qden]. lia. }
  rewrite (Qceiling_comp _ _ Hq), Qceiling_Z.
  rewrite <- (Nat2Z.id (2 * (n / 2))). f_equal.
  rewrite Nat2Z.inj_mul, Nat2Z.inj_div. reflexivity.
Qed.

Lemma half_twice_le (n : nat) : (2 * (n / 2) <= n)%nat.
Proof. pose proof (Nat.div_mod_eq n 2). lia. Qed.

Lemma half_twice_even (n : nat) : (2 * (n / 2))%nat = n <-> Nat.even n = true.
Proof.
  pose proof (Nat.div_mod_eq n 2) as Hd.
  pose proof (Nat.mod_upper_bound n 2 ltac:(lia)) as Hm.
  rewrite Nat.even_spec. split.
  - intros H. exists (n / 2)%nat. lia.
  - intros [k ->].
    assert (2 * k / 2 = k)%nat as ->; [|reflexivity].
    rewrite (Nat.mul_comm 2 k). apply Nat.div_mul. lia.
Qed.

(** Number of points of the default grid. *)
Lemma length_default_grid_any (vol : ndarray) :
  exists ox oy oz,
    half_shape vol = [ox; oy; oz] /\
    length (vstack_ones (grid_about ox oy oz))
    = (let '(n0, n1, n2) := shape vol in
       (2 * (n1 / 2)) * ((2 * (n0 / 2)) * (2 * (n2 / 2))))%nat.
Proof.
  unfold half_shape, grid_about. destruct (shape vol) as [[n0 n1] n2].
  eexists _, _, _. split; [reflexivity|].
  unfold vstack_ones.
  now rewrite length_map, length_meshgrid_xy, !length_arange_half_any.
Qed.

Lemma mul3_lt (a b c x y z : nat) :
  (a <= x -> b <= y -> c <= z -> 0 < x -> 0 < y -> 0 < z ->
   a < x \/ b < y \/ c < z -> a * b * c < x * y * z)%nat.
Proof.
  intros Ha Hb Hc Hx Hy Hz H.
  assert (Hab : (a * b <= x * y)%nat) by now apply Nat.mul_le_mono.
  assert (Hxy : (0 < x * y)%nat) by now apply Nat.mul_pos_pos.
  assert (Hle : (a * b * c <= x * y * z)%nat) by now apply Nat.mul_le_mono.
  destruct (Nat.eq_dec (a * b * c) (x * y * z)) as [E|N]; [exfalso|lia].
  assert (Hpos : (0 < x * y * z)%nat) by now apply Nat.mul_pos_pos.
  assert (Hc1 : (0 < c)%nat) by (destruct c; [rewrite Nat.mul_0_r in E|]; lia).
  assert (Hab1 : (0 < a * b)%nat) by (destruct (a * b)%nat; [cbn in E|]; lia).
  assert (Hb1 : (0 < b)%nat) by (destruct b; [rewrite Nat.mul_0_r in Hab1|]; lia).
  assert (Ha1 : (0 < a)%nat) by (destruct a; [cbn in Hab1|]; lia).
  assert (Hab' : (a * b = x * y)%nat).
  { destruct (Nat.eq_dec (a * b) (x * y)) as [E'|N']; [exact E'|exfalso].
    assert (a * b < x * y)%nat by lia.
    assert (a * b * c < x * y * c)%nat by now apply Nat.mul_lt_mono_pos_r.
    assert (x * y * c <= x * y * z)%nat by now apply Nat.mul_le_mono_l.
    lia. }
  assert (Hcz : c = z).
  { destruct (Nat.eq_dec c z) as [E'|N']; [exact E'|exfalso].
    assert (c < z)%nat by lia.
    assert (a * b * c < a * b * z)%nat by now apply Nat.mul_lt_mono_pos_l.
    rewrite Hab' in *. lia. }
  assert (Hax : a = x).
  { destruct (Nat.eq_dec a x) as [E'|N']; [exact E'|exfalso].
    assert (a < x)%nat by lia.
    assert (a * b < x * b)%nat by now apply Nat.mul_lt_mono_pos_r.
    assert (x * b <= x * y)%nat by now apply Nat.mul_le_mono_l.
    lia. }
  assert (Hby : b = y).
  { subst a. apply Nat.mul_cancel_l in Hab'; lia. }
  lia.
Qed.

Lemma default_grid_fits (vol : ndarray) :
  positive_shape vol = true ->
  ((let '(n0, n1, n2) := shape vol in
    (2 * (n1 / 2)) * ((2 * (n0 / 2)) * (2 * (n2 / 2))))%nat = size vol
   <-> even_shape vol = true).
Proof.
  unfold positive_shape, even_shape, size, size_of.
  destruct (shape vol) as [[n0 n1] n2]. intros Hp.
  apply andb_prop in Hp as [Hp Hp2]. apply andb_prop in Hp as [Hp0 Hp1].
  apply Nat.ltb_lt in Hp0, Hp1, Hp2.
  rewrite !andb_true_iff, <- !half_twice_even.
  pose proof (half_twice_le n0). pose proof (half_twice_le n1).
  pose proof (half_twice_le n2).
  split; [|intros [[-> ->] ->]; lia].
  intros Heq.
  destruct (Nat.eq_dec (2 * (n0 / 2)) n0) as [E0|N0];
    destruct (Nat.eq_dec (2 * (n1 / 2)) n1) as [E1|N1];
    destruct (Nat.eq_dec (2 * (n2 / 2)) n2) as [E2|N2]; try tauto; exfalso.
  all: pose proof (mul3_lt (2 * (n1 / 2)) (2 * (n0 / 2)) (2 * (n2 / 2)) n1 n0 n2)
    as Hlt.
  all: rewrite <- Nat.mul_assoc in Hlt.
  all: assert (n1 * n0 * n2 = n0 * n1 * n2)%nat as Hc by lia.
  all: rewrite Hc in Hlt.
  all: enough (2 * (n1 / 2) * (2 * (n0 / 2) * (2 * (n2 / 2))) < n0 * n1 * n2)%nat
    by lia.
  all: apply Hlt; try assumption; lia.
Qed.

Lemma sub_broadcast3 (a : vec) (ox oy oz : Q) :
  length a = 3%nat \/ length a = 1%nat ->
  exists x y z, sub a [ox; oy; oz] = Some [x; y; z].
Proof.
  intros [H|H].
  - destruct a as [|a0 [|a1 [|a2 [|? ?]]]]; try discriminate.
    now eexists _, _, _.
  - destruct a as [|a0 [|? ?]]; try discriminate.
    now eexists _, _, _.
Qed.

(** With the default origin, a requested transform goes through exactly
    when the grid has as many points as the volume. *)
Lemma resample_volume_default interp vol r t order :
  r <> None \/ t <> None ->
  (forall tv, t = Some tv -> length tv = 3%nat \/ length tv = 1%nat) ->
  exists coords,
    length coords
    = (let '(n0, n1, n2) := shape vol in
       (2 * (n1 / 2)) * ((2 * (n0 / 2)) * (2 * (n2 / 2))))%nat /\
    resample_volume interp vol r t None order
    = if Nat.eqb (length coords) (size vol)
      then Some (map_coordinates interp vol (shape vol) coords order)
      else None.
Proof.
  intros Hrt Ht.
  destruct (length_default_grid_any vol) as (ox & oy & oz & Hh & Hg).
  unfold grid_about in Hg. unfold resample_volume. rewrite Hh.
  destruct r as [m|], t as [tv|]; try (exfalso; destruct Hrt; congruence).
  all: cbv zeta.
  - destruct (sub_broadcast3 tv ox oy oz (Ht _ eq_refl)) as (x & y & z & ->).
    cbn [set_col3 eye4 option_map].
    eexists. split; [|reflexivity]. now rewrite length_map.
  - destruct m as [m|m [[c0 c1] c2]];
      cbn [rot_columns Nat.eqb rot_column3 v3list sub broadcast2 length
           option_map].
    all: eexists; split; [|reflexivity]; now rewrite length_map.
  - destruct (sub_broadcast3 tv ox oy oz (Ht _ eq_refl)) as (x & y & z & ->).
    cbn [set_col3 eye4 option_map].
    eexists. split; [|reflexivity]. now rewrite length_map.
Qed.

(** X1.  With the default origin, on a box with positive dimensions, a
    requested rotation and/or translation (of one or three components) is
    carried out if and only if every box dimension is even; with an odd
    dimension the reshape of the coordinate grid raises. *)
Theorem resample_volume_default_origin_needs_even_box :
  forall interp vol r t order,
    r <> None \/ t <> None ->
    (forall tv, t = Some tv -> length tv = 3%nat \/ length tv = 1%nat) ->
    positive_shape vol = true ->
    (resample_volume interp vol r t None order <> None
     <-> even_shape vol = true).
Proof.
  intros interp vol r t order Hrt Ht Hp.
  destruct (resample_volume_default interp vol r t order Hrt Ht)
    as (coords & Hlen & ->).
  rewrite <- (default_grid_fits vol Hp), <- Hlen.
  destruct (Nat.eqb_spec (length coords) (size vol)) as [E|N].
  - split; [intros _; exact E | discriminate].
  - split; [intros H; now exfalso | intros E; contradiction].
Qed.

(** A 3x3x3 volume: the identity matrix cannot be applied. *)
Lemma resample_volume_default_origin_needs_even_box_witness :
  resample_volume nearest (mkarray (3, 3, 3)%nat (ramp 27))
                  (Some (Rot3x3 eye3)) None None 3 = None.
Proof.
  destruct (resample_volume nearest (mkarray (3, 3, 3)%nat (ramp 27))
              (Some (Rot3x3 eye3)) None None 3) eqn:E; [exfalso|reflexivity].
  assert (H : resample_volume nearest (mkarray (3, 3, 3)%nat (ramp 27))
                (Some (Rot3x3 eye3)) None None 3 <> None)
    by (rewrite E; discriminate).
  apply (resample_volume_default_origin_needs_even_box nearest
           (mkarray (3, 3, 3)%nat (ramp 27)) (Some (Rot3x3 eye3)) None 3%nat)
    in H.
  - discriminate H.
  - left. discriminate.
  - intros tv Htv. discriminate Htv.
  - reflexivity.
Defined.

Lemma meshgrid_xy_In (xs ys zs : vec) (p : vec) :
  In p (meshgrid_xy xs ys zs) -> exists x y z, p = [x; y; z].
Proof.
  unfold meshgrid_xy. intros H.
  apply in_flat_map in H as (y & _ & H).
  apply in_flat_map in H as (x & _ & H).
  apply in_map_iff in H as (z & <- & _). now exists x, y, z.
Qed.

Lemma Forall2_map_pointwise {A B} (R : B -> B -> Prop) (f g : A -> B) (l : list A) :
  (forall p, In p l -> R (f p) (g p)) -> Forall2 R (map f l) (map g l).
Proof.
  induction l as [|x l IH]; intros H; [constructor|].
  cbn [map]. constructor.
  - apply H. now left.
  - apply IH. intros p Hp. apply H. now right.
Qed.

Ltac veq_ring :=
  unfold veq, back_map, mat_vec, dotp, rows33, transpose33, v3list, eye3;
  cbn [map combine fold_right fst snd firstn skipn app];
  repeat (apply Forall2_cons; [ring|]); apply Forall2_nil.

(** X2.  Where [resample_volume] samples.  For a three-component origin
    [o], output voxels are filled, in C order, from the points
    [R.T.dot(g) + s] with [g] running over the "xy" grid about [o], [R] the
    3x3 block of [r] (identity if absent), and [s] the translation [t]
    itself when one is given (the origin then cancels out of the
    transform) and the origin [o] when none is given. *)
Theorem resample_volume_sampling_points :
  forall interp vol r t ox oy oz order v',
    r <> None \/ t <> None ->
    (forall tv, t = Some tv -> length tv = 3%nat) ->
    resample_volume interp vol r t (Some [ox; oy; oz]) order = Some v' ->
    exists coords,
      v' = mkarray (shape vol) (map (interp order vol) coords) /\
      Forall2 veq coords
              (map (back_map (rot_or_eye r)
                             (match t with Some tv => tv | None => [ox; oy; oz] end))
                   (grid_about ox oy oz)).
Proof.
  intros interp vol r t ox oy oz order v' Hrt Ht H.
  unfold resample_volume in H.
  destruct r as [m|], t as [tv|]; try (exfalso; destruct Hrt; congruence).
  all: cbv zeta in H.
  all: try (specialize (Ht tv eq_refl);
            destruct tv as [|tx [|ty [|tz [|? ?]]]]; try discriminate Ht;
            cbn [sub broadcast2 length Nat.eqb map combine fst snd set_col3 eye4
                 option_map firstn app] in H).
  all: try (destruct m as [ [[[[a b] c] [[d e] f]] [[g h] i]]
                          | [[[[a b] c] [[d e] f]] [[g h] i]] [[c0 c1] c2] ];
            cbn [rot_columns Nat.eqb rot_column3 v3list sub broadcast2 length
                 option_map map combine fst snd] in H).
  all: match type of H with
       | (if ?c then _ else _) = _ => destruct c; [|discriminate]
       end.
  all: injection H as <-; eexists; split; [reflexivity|].
  all: unfold vstack_ones; rewrite map_map; apply Forall2_map_pointwise.
  all: intros p Hp; apply meshgrid_xy_In in Hp as (x & y & z & ->).
  all: cbn [rot_or_eye rot_block eye3 set_block33 eye4 rows33 transpose33 v3list
            app skipn].
  all: veq_ring.
Qed.

(** The identity block with translation (1,1,1) about the origin (1,1,1)
    of the 2x2x2 volume. *)
Lemma resample_volume_sampling_points_witness :
  exists coords,
    mkarray (2, 2, 2)%nat [1; 2; 5; 6; 3; 4; 7; 8]
    = mkarray (shape cube8) (map (nearest 0 cube8) coords) /\
    Forall2 veq coords
            (map (back_map eye3 [1; 1; 1]) (grid_about 1 1 1)).
Proof.
  apply (resample_volume_sampling_points nearest cube8 (Some (Rot3x3 eye3))
           (Some [1; 1; 1]) 1 1 1 0%nat).
  - left. discriminate.
  - intros tv Htv. injection Htv as Htv. now rewrite <- Htv.
  - vm_compute. reflexivity.
Defined.

(** X3.  Where the Euler step samples.  For a three-component origin [o]
    the step is one call of [affine_transform] with matrix [R.T] and an
    offset under which output voxel [i] is filled from
    [R.T.dot(i - c) + c], with [c = o - 0.5]: the rotation is about the
    point half a voxel below the origin on every axis, which stays fixed. *)
Theorem euler_branch_rotates_about_half_voxel_below_origin :
  forall interp dat r ox oy oz order,
    exists offset,
      euler_branch interp dat r [ox; oy; oz] order
      = affine_transform interp dat (transpose33 r) offset order /\
      length offset = 3%nat /\
      let c := [ox - (1 # 2); oy - (1 # 2); oz - (1 # 2)] in
      (forall i0 i1 i2,
          veq (back_map r offset [i0; i1; i2])
              (back_map r c [i0 - (ox - (1 # 2)); i1 - (oy - (1 # 2));
                             i2 - (oz - (1 # 2))])) /\
      veq (back_map r offset c) c.
Proof.
  intros interp dat [[[[a b] c] [[d e] f]] [[g h] i]] ox oy oz order.
  unfold euler_branch.
  cbn [sub_scalar map dot3 length Nat.eqb mat_vec rows33 transpose33 v3list
       sub broadcast2 combine fst snd].
  eexists. split; [reflexivity|]. split; [reflexivity|].
  split; [intros i0 i1 i2|]; veq_ring.
Qed.

(** * Further properties of [ismask] *)

Lemma picks_none (start step n0 : nat) :
  (n0 <= start)%nat -> filter (picks start step) (seq 0 n0) = [].
Proof.
  intros H. apply filter_nil. intros i Hi. apply in_seq in Hi.
  unfold picks. apply andb_false_iff. left. apply Nat.leb_gt. lia.
Qed.

Lemma picks_one (start step n0 : nat) :
  (start < n0 <= start + step)%nat ->
  filter (picks start step) (seq 0 n0) = [start].
Proof.
  intros H.
  replace n0 with (start + S (n0 - S start))%nat by lia.
  rewrite seq_app, filter_app, picks_none by lia.
  cbn [seq filter app Nat.add]. unfold picks at 1.
  rewrite Nat.leb_refl, Nat.sub_diag.
  assert (step <> 0)%nat by lia.
  rewrite Nat.Div0.mod_0_l. cbn [andb Nat.eqb]. f_equal.
  apply filter_nil. intros i Hi. apply in_seq in Hi.
  unfold picks. apply andb_false_iff. right. apply Nat.eqb_neq.
  rewrite Nat.mod_small; lia.
Qed.

Lemma length_unique_le (l : list Q) : (length (unique l) <= length l)%nat.
Proof.
  induction l as [|x l IH]; [reflexivity|].
  rewrite unique_cons. cbn [length]. apply le_n_S.
  etransitivity; [apply filter_length_le|exact IH].
Qed.

Lemma length_flat_map_le {A B} (f : A -> list B) (l : list A) (k : nat) :
  (forall x, length (f x) <= k)%nat -> (length (flat_map f l) <= length l * k)%nat.
Proof.
  intros Hf. induction l as [|x l IH]; [reflexivity|].
  cbn [flat_map length]. rewrite length_app. specialize (Hf x). lia.
Qed.

Lemma planes_from_filter (vol : ndarray) (start step : nat) :
  step <> 0%nat ->
  planes_from vol start step
  = Some (flat_map (fun i => firstn (snd (fst (shape vol)) * depth vol)
                                    (skipn (i * (snd (fst (shape vol)) * depth vol))
                                           (data vol)))
                   (filter (picks start step) (seq 0 (fst (fst (shape vol)))))).
Proof.
  unfold planes_from, depth, picks. destruct (shape vol) as [[n0 n1] n2].
  now destruct step.
Qed.

Lemma ismask_planes (vol : ndarray) :
  depth vol <> 0%nat ->
  ismask vol
  = Some (length (unique
            (flat_map (fun i => firstn (snd (fst (shape vol)) * depth vol)
                                       (skipn (i * (snd (fst (shape vol)) * depth vol))
                                              (data vol)))
                      (filter (picks (depth vol / 2) (depth vol))
                              (seq 0 (fst (fst (shape vol))))))) <? 100)%nat.
Proof.
  intros Hd.
  assert (Hm : ismask vol
               = option_map (fun sample => (length (unique sample) <? 100)%nat)
                            (planes_from vol (depth vol / 2) (depth vol))).
  { unfold ismask, depth. now destruct (shape vol) as [[n0 n1] n2]. }
  now rewrite Hm, planes_from_filter.
Qed.

(** X4.  On a box (n0, n1, n2) with n2/2 < n0 <= n2/2 + n2, in particular
    on every cube, [ismask] looks at one plane only, the plane n2/2 of the
    first axis: the answer is "mask" exactly when that plane holds fewer
    than 100 distinct values, whatever the other voxels are. *)
Theorem ismask_reads_one_plane :
  forall vol : ndarray,
    (depth vol / 2 < fst (fst (shape vol)) <= depth vol / 2 + depth vol)%nat ->
    ismask vol
    = Some (length (unique (plane vol (depth vol / 2))) <? 100)%nat.
Proof.
  intros vol H.
  rewrite ismask_planes by lia. rewrite picks_one by exact H.
  cbn [flat_map]. now rewrite app_nil_r.
Qed.

Lemma ismask_reads_one_plane_witness :
  ismask cube8 = Some (Nat.ltb (length (unique [5; 6; 7; 8])) 100).
Proof.
  apply (ismask_reads_one_plane cube8). cbn. lia.
Defined.

(** X5.  When the first dimension does not exceed half the third (and
    the third is not zero), the slice [vol[nz/2::nz]] is empty and the
    volume is classified as a mask whatever it contains. *)
Theorem ismask_empty_slice :
  forall vol : ndarray,
    depth vol <> 0%nat ->
    (fst (fst (shape vol)) <= depth vol / 2)%nat ->
    ismask vol = Some true.
Proof.
  intros vol Hd H.
  rewrite ismask_planes by exact Hd. now rewrite picks_none by exact H.
Qed.

Lemma ismask_empty_slice_witness :
  ismask (mkarray (2, 3, 4)%nat (ramp 24)) = Some true.
Proof.
  apply ismask_empty_slice; cbn; [discriminate | lia].
Defined.

(** X6.  A volume with fewer than 100 voxels, or whose single sampled
    plane has fewer than 100 voxels (every cube of side at most 9), is
    always classified as a mask. *)
Theorem ismask_small_volume :
  forall vol : ndarray,
    depth vol <> 0%nat ->
    (size vol < 100)%nat \/
    ((depth vol / 2 < fst (fst (shape vol)) <= depth vol / 2 + depth vol)%nat /\
     (snd (fst (shape vol)) * depth vol < 100)%nat) ->
    ismask vol = Some true.
Proof.
  intros vol Hd H.
  rewrite ismask_planes by exact Hd. f_equal. apply Nat.ltb_lt.
  eapply Nat.le_lt_trans; [apply length_unique_le|].
  destruct H as [H|[H1 H2]].
  - eapply Nat.le_lt_trans; [|exact H].
    etransitivity.
    + apply (length_flat_map_le _ _ (snd (fst (shape vol)) * depth vol)).
      intros i. apply firstn_le_length.
    + unfold size, size_of, depth. destruct (shape vol) as [[n0 n1] n2].
      cbn [fst snd].
      assert (length (filter (picks (n2 / 2) n2) (seq 0 n0)) <= n0)%nat.
      { etransitivity; [apply filter_length_le|]. now rewrite length_seq. }
      rewrite <- Nat.mul_assoc. now apply Nat.mul_le_mono_r.
  - rewrite picks_one by exact H1. cbn [flat_map]. rewrite app_nil_r.
    eapply Nat.le_lt_trans; [apply firstn_le_length|exact H2].
Qed.

Lemma ismask_small_volume_witness :
  ismask (mkarray (9, 9, 9)%nat (ramp 729)) = Some true.
Proof.
  apply ismask_small_volume; cbn; [discriminate | right; lia].
Defined.

(** * Further properties of [main] *)

Lemma pose_steps_shape E a p o d d' :
  pose_steps E a p o d = Val d' -> shape d' = shape d.
Proof.
  unfold pose_steps. intros H.
  destruct (matrix_step E a d) as [d1| |] eqn:H1; try discriminate.
  cbn [rbind] in H.
  destruct (target_step E a p o d1) as [d2| |] eqn:H2; try discriminate.
  cbn [rbind] in H.
  destruct (euler_step E a o d2) as [d3| |] eqn:H3; try discriminate.
  cbn [rbind] in H.
  rewrite (translate_step_shape _ _ _ _ _ _ H), (euler_step_shape _ _ _ _ _ H3),
    (target_step_shape _ _ _ _ _ _ H2).
  now apply matrix_step_shape in H1.
Qed.

(** What a completed run has gone through. *)
Lemma main_val E a w :
  fst (main E a) = Val w ->
  exists dat hdr final o b d,
    read E (input a) = Some (dat, hdr) /\
    normalized E a dat = Val final /\
    resolve_origin E a hdr (resolve_apix a hdr) = Val o /\
    ismask dat = Some b /\
    pose_steps E a (resolve_apix a hdr) o dat = Val d /\
    w = mkwritten (output a) (match final with Some f => f | None => d end)
                  (resolve_apix a hdr).
Proof.
  intros Hw. rewrite main_fst in Hw.
  destruct (read E (input a)) as [[dat hdr]|] eqn:Hr.
  2:{ unfold outcome in Hw. rewrite Hr in Hw. discriminate. }
  rewrite (outcome_pose E ismask a dat hdr Hr) in Hw.
  destruct (normalized E a dat) as [final| |] eqn:Hf; try discriminate.
  cbn [rbind] in Hw.
  destruct (resolve_origin _ _ _ _) as [o| |] eqn:Ho; try discriminate.
  cbn [rbind] in Hw.
  destruct (ismask dat) as [b|] eqn:Hb; try discriminate.
  cbn [rcall rbind] in Hw.
  destruct (pose_steps _ _ _ _ _) as [d| |] eqn:Hd; try discriminate.
  cbn [rbind] in Hw. injection Hw as <-.
  exists dat, hdr, final, o, b, d. repeat split; assumption.
Qed.

Lemma normalized_shape E a dat f :
  normalized E a dat = Val (Some f) -> shape f = shape dat.
Proof.
  unfold normalized. destruct (normalize a); [|discriminate].
  destruct (match reference a with Some _ => _ | None => _ end);
    try discriminate.
  cbn [rbind]. now intros [= <-].
Qed.

(** X7.  Whatever [main] writes goes to [args.output], carries the pixel
    size given on the command line, or [xlen / nx] of the input header
    when none was given, and has the shape of the input volume. *)
Theorem written_file_path_pixel_size_shape :
  forall (E : Env) (a : args) (w : written),
    fst (main E a) = Val w ->
    w_path w = output a /\
    exists dat hdr,
      read E (input a) = Some (dat, hdr) /\
      w_psz w = match apix a with
                | Some p => p
                | None => xlen hdr / inject_Z (nx hdr)
                end /\
      shape (w_data w) = shape dat.
Proof.
  intros E a w Hw.
  destruct (main_val E a w Hw)
    as (dat & hdr & final & o & b & d & Hr & Hf & Ho & Hb & Hd & ->).
  split; [reflexivity|]. exists dat, hdr. repeat split; [exact Hr|].
  cbn [w_data]. destruct final as [f|].
  - now apply (normalized_shape E a).
  - now apply pose_steps_shape in Hd.
Qed.

Lemma written_file_path_pixel_size_shape_witness :
  w_path (mkwritten "out.mrc" cube8 1) = "out.mrc"%string /\
  exists dat hdr,
    files cube8 "in.mrc" = Some (dat, hdr) /\
    w_psz (mkwritten "out.mrc" cube8 1) = 1 /\
    shape (w_data (mkwritten "out.mrc" cube8 1)) = shape dat.
Proof.
  exact (written_file_path_pixel_size_shape (example_env cube8)
           (example_args false None None None None None)
           (mkwritten "out.mrc" cube8 1) eq_refl).
Defined.

(** X8.  A run in which the origin, the matrix, the target, the Euler
    angles or the translation is given but cannot be parsed never writes
    a file. *)
Theorem malformed_request_writes_nothing :
  forall (E : Env) (a : args) (s : string),
    (origin a = Some s /\ parse_floats E s = None) \/
    (matrix a = Some s /\ json_matrix E s = None) \/
    (target a = Some s /\ parse_floats E s = None) \/
    (euler a = Some s /\ parse_floats E s = None) \/
    (translate a = Some s /\ parse_floats E s = None) ->
    written_volume (main E a) = None.
Proof.
  intros E a s H. unfold written_volume.
  destruct (fst (main E a)) as [w| |] eqn:Hw; try reflexivity. exfalso.
  destruct (main_val E a w Hw)
    as (dat & hdr & final & o & b & d & Hr & Hf & Ho & Hb & Hd & _).
  unfold pose_steps in Hd.
  destruct H as [[H1 H2]|[[H1 H2]|[[H1 H2]|[[H1 H2]|[H1 H2]]]]].
  - unfold resolve_origin in Ho. rewrite H1, H2 in Ho. discriminate.
  - unfold matrix_step in Hd. rewrite H1, H2 in Hd. discriminate.
  - destruct (matrix_step E a dat); try discriminate. cbn [rbind] in Hd.
    unfold target_step in Hd. rewrite H1, H2 in Hd. discriminate.
  - destruct (matrix_step E a dat); try discriminate. cbn [rbind] in Hd.
    destruct (target_step E a _ o _); try discriminate. cbn [rbind] in Hd.
    unfold euler_step in Hd. rewrite H1, H2 in Hd. discriminate.
  - destruct (matrix_step E a dat); try discriminate. cbn [rbind] in Hd.
    destruct (target_step E a _ o _); try discriminate. cbn [rbind] in Hd.
    destruct (euler_step E a o _); try discriminate. cbn [rbind] in Hd.
    unfold translate_step in Hd. rewrite H1, H2 in Hd. discriminate.
Qed.

Lemma malformed_request_writes_nothing_witness :
  written_volume (main (example_env cube8)
                       (example_args false None None None (Some "1,,3"%string) None))
  = None.
Proof.
  apply (malformed_request_writes_nothing _ _ "1,,3"%string).
  right. right. right. right. split; reflexivity.
Defined.

Lemma isub_length_mismatch (l o : vec) :
  length o = 3%nat -> length l <> 3%nat -> isub l o = None.
Proof.
  intros Ho Hl. unfold isub.
  destruct (Nat.eqb_spec (length l) (length o)) as [E|N]; [congruence|].
  destruct o as [|o0 [|o1 [|o2 [|? ?]]]]; try discriminate. reflexivity.
Qed.

(** X9.  A wrong number of components is not reported as a parse error.
    In a run without normalisation, with the default origin and no other
    pose request, Euler angles that parse to other than three numbers, or
    a translation that parses to other than three numbers, end the run
    with an exception that nothing catches, not with exit status 1. *)
Theorem wrong_component_count_raises :
  forall (E : Env) (a : args) dat hdr b s l,
    read E (input a) = Some (dat, hdr) ->
    normalize a = false -> origin a = None ->
    ismask dat = Some b ->
    matrix a = None -> target a = None ->
    parse_floats E s = Some l -> length l <> 3%nat ->
    (euler a = Some s \/ (euler a = None /\ translate a = Some s)) ->
    fst (main E a) = Raise.
Proof.
  intros E a dat hdr b s l Hr Hn Ho Hb Hm Ht Hp Hl H.
  rewrite main_fst, (outcome_pose E ismask a dat hdr Hr).
  unfold normalized, resolve_origin. rewrite Hn, Ho, Hb. cbn [rbind rcall].
  unfold pose_steps, matrix_step, target_step. rewrite Hm, Ht. cbn [rbind].
  destruct H as [He|[He Htr]].
  - unfold euler_step. rewrite He, Hp.
    assert (Hlen : length (map (deg2rad E) l) <> 3%nat) by now rewrite length_map.
    destruct (map (deg2rad E) l) as [|? [|? [|? [|? ?]]]]; try reflexivity.
    now exfalso.
  - unfold euler_step, translate_step. rewrite He, Htr, Hp. cbn [rbind].
    rewrite isub_length_mismatch; [reflexivity|reflexivity|].
    unfold div_scalar. now rewrite length_map.
Qed.

Lemma wrong_component_count_raises_witness :
  fst (main (example_env cube8)
            (example_args false None None (Some "10,20"%string) None None))
  = Raise.
Proof.
  apply (wrong_component_count_raises (example_env cube8) _ cube8 header8 true
           "10,20"%string [10; 20]); try reflexivity.
  - discriminate.
  - now left.
Defined.

(** X10.  An origin given as a single number passes validation when it
    is below every box dimension, because the comparison broadcasts; the
    run then writes its input unchanged if no pose step is requested, but
    a target or Euler request that parses ends in an uncaught exception
    (the grid and the offset need three components). *)
Theorem single_number_origin :
  forall (E : Env) (a : args) dat hdr b s x,
    read E (input a) = Some (dat, hdr) ->
    normalize a = false ->
    ismask dat = Some b ->
    origin a = Some s -> parse_floats E s = Some [x] ->
    let p := resolve_apix a hdr in
    x / p < inject_Z (nx hdr) -> x / p < inject_Z (ny hdr) ->
    x / p < inject_Z (nz hdr) ->
    matrix a = None ->
    (no_pose a -> fst (main E a) = Val (mkwritten (output a) dat p)) /\
    (forall st l, target a = Some st -> parse_floats E st = Some l ->
                  fst (main E a) = Raise) /\
    (forall se l, target a = None -> euler a = Some se ->
                  parse_floats E se = Some l -> fst (main E a) = Raise).
Proof.
  intros E a dat hdr b s x Hr Hn Hb Ho Hp p Hx Hy Hz Hm.
  assert (Hres : resolve_origin E a hdr p = Val [x / p]).
  { unfold resolve_origin, box_of. rewrite Ho, Hp.
    unfold all_lt, div_scalar, sub, broadcast2.
    cbn [map length Nat.eqb option_map forallb].
    apply not_below_iff in Hx, Hy, Hz. now rewrite Hx, Hy, Hz. }
  assert (Hmain : fst (main E a)
                  = rbind (pose_steps E a p [x / p] dat)
                          (fun d => Val (mkwritten (output a) d p))).
  { rewrite main_fst, (outcome_pose E ismask a dat hdr Hr).
    unfold normalized. rewrite Hn. cbn [rbind]. fold p. now rewrite Hres, Hb. }
  rewrite Hmain. unfold pose_steps, matrix_step. rewrite Hm. cbn [rbind].
  split; [|split].
  - intros (_ & Ht & He & Htr).
    unfold target_step, euler_step, translate_step. now rewrite Ht, He, Htr.
  - intros st l Ht Hl. unfold target_step. rewrite Ht, Hl.
    destruct (isub (div_scalar l p) [x / p]) as [tv|]; [|reflexivity].
    cbn [rcall rbind].
    destruct (vec2rot E tv) as [r|]; [|reflexivity]. cbn [rcall rbind].
    reflexivity.
  - intros se l Ht He Hl. unfold target_step, euler_step. rewrite Ht, He, Hl.
    cbn [rbind].
    destruct (map (deg2rad E) l) as [|? [|? [|? [|? ?]]]]; reflexivity.
Qed.

Lemma single_number_origin_witness :
  fst (main (example_env cube8)
            (example_args false (Some "1"%string) None (Some "0,0,0"%string)
                          None None))
  = Raise.
Proof.
  refine (proj2 (proj2 (single_number_origin (example_env cube8)
            (example_args false (Some "1"%string) None (Some "0,0,0"%string)
                          None None)
            cube8 header8 true "1"%string 1
            eq_refl eq_refl eq_refl eq_refl eq_refl _ _ _ eq_refl))
          "0,0,0"%string [0; 0; 0] eq_refl eq_refl eq_refl);
    reflexivity.
Defined.

(** * The log of [main] *)

Lemma no_error_app (l1 l2 : list msg) :
  no_error l1 -> no_error l2 -> no_error (l1 ++ l2).
Proof. unfold no_error. intros H1 H2. now rewrite forallb_app, H1, H2. Qed.

Lemma tidy_ret {A} (a : A) : tidy (ret a).
Proof. intros l. exists []. now rewrite app_nil_r. Qed.

Lemma tidy_raise {A} : tidy (@raise A).
Proof. intros l. exists []. now rewrite app_nil_r. Qed.

Lemma tidy_call {A} (o : option A) : tidy (call o).
Proof. destruct o; [apply tidy_ret | apply tidy_raise]. Qed.

Lemma tidy_emit (m : msg) : is_error m = false -> tidy (emit m).
Proof.
  intros H l. exists [m]. split; [reflexivity|].
  unfold error_discipline, no_error. cbn. now rewrite H.
Qed.

Lemma tidy_when (b : bool) (m : msg) : is_error m = false -> tidy (when b (emit m)).
Proof. destruct b; [apply tidy_emit | intros _; apply tidy_ret]. Qed.

Lemma tidy_error {A} (e : msg) :
  is_error e = true -> tidy (bind (emit e) (fun _ => @return_ A 1%Z)).
Proof.
  intros H l. exists [e]. split; [reflexivity|].
  cbn. split; [reflexivity|]. exists [], e. now repeat split.
Qed.

Lemma tidy_bind {A B} (m : M A) (k : A -> M B) :
  tidy m -> (forall a, tidy (k a)) -> tidy (bind m k).
Proof.
  intros Hm Hk l. unfold bind.
  destruct (Hm l) as (out1 & Hs1 & Hd1).
  destruct (m l) as [[a| c |] l'] eqn:E; cbn [fst snd] in *; subst l'.
  - destruct (Hk a (l ++ out1)) as (out2 & Hs2 & Hd2).
    exists (out1 ++ out2). rewrite Hs2, app_assoc. split; [reflexivity|].
    destruct (fst (k a (l ++ out1))) as [b| c |]; cbn in *.
    + now apply no_error_app.
    + destruct Hd2 as (-> & pre & e & -> & He & Hpre).
      split; [reflexivity|]. exists (out1 ++ pre), e.
      rewrite app_assoc. repeat split; [exact He|]. now apply no_error_app.
    + now apply no_error_app.
  - exists out1. now split.
  - exists out1. now split.
Qed.

Ltac tidy_step :=
  first [ apply tidy_ret | apply tidy_raise | apply tidy_call
        | apply tidy_error; reflexivity
        | apply tidy_when; reflexivity
        | apply tidy_emit; reflexivity
        | apply tidy_bind; [|intro]
        | match goal with
          | |- tidy (match ?x with _ => _ end) => destruct x
          end ].

Lemma main_body_tidy (E : Env) (classify : ndarray -> option bool) (a : args) :
  tidy (main_body E classify a).
Proof.
  unfold main_body. repeat (cbv zeta; tidy_step).
Qed.

(** X11.  Exit status and error messages go together.  A run that
    returns early returns 1, and its log then ends with an error message,
    the only error message in it; a run that writes its file, or that ends
    in an uncaught exception, has logged no error message. *)
Theorem exit_status_matches_error_log :
  forall (E : Env) (a : args),
    error_discipline (fst (main E a)) (snd (main E a)).
Proof.
  intros E a. unfold main.
  destruct (main_body_tidy E ismask a []) as (out & Hs & Hd).
  now rewrite Hs.
Qed.

Lemma emits_ret {A} P (a : A) : emits P (ret a).
Proof. intros l. exists []. now rewrite app_nil_r. Qed.

Lemma emits_raise {A} P : emits P (@raise A).
Proof. intros l. exists []. now rewrite app_nil_r. Qed.

Lemma emits_return {A} P (c : Z) : emits P (@return_ A c).
Proof. intros l. exists []. now rewrite app_nil_r. Qed.

Lemma emits_call {A} P (o : option A) : emits P (call o).
Proof. destruct o; [apply emits_ret | apply emits_raise]. Qed.

Lemma emits_emit (P : msg -> Prop) (m : msg) : P m -> emits P (emit m).
Proof. intros H l. exists [m]. split; [reflexivity|]. now constructor. Qed.

Lemma emits_when (P : msg -> Prop) (b : bool) (m : msg) :
  (b = true -> P m) -> emits P (when b (emit m)).
Proof. destruct b; intros H; [apply emits_emit; auto | apply emits_ret]. Qed.

(** The continuation only matters at the values the first part returns. *)
Lemma emits_bind {A B} P (m : M A) (k : A -> M B) :
  emits P m ->
  (forall a, (exists l, fst (m l) = Val a) -> emits P (k a)) ->
  emits P (bind m k).
Proof.
  intros Hm Hk l. unfold bind.
  destruct (Hm l) as (out1 & Hs1 & Hf1).
  destruct (m l) as [[a| c |] l'] eqn:E; cbn [fst snd] in *; subst l'.
  - destruct (Hk a (ex_intro _ l (f_equal fst E)) (l ++ out1))
      as (out2 & Hs2 & Hf2).
    exists (out1 ++ out2). rewrite Hs2, app_assoc. split; [reflexivity|].
    now apply Forall_app.
  - now exists out1.
  - now exists out1.
Qed.

Lemma call_val {A} (o : option A) (a : A) :
  (exists l, fst (call o l) = Val a) -> o = Some a.
Proof. intros [l H]. destruct o; cbn in H; congruence. Qed.

Ltac emits_step :=
  first [ apply emits_ret | apply emits_raise | apply emits_return
        | apply emits_call
        | apply emits_emit; try exact I; intros; discriminate
        | apply emits_when; intros; try exact I; intros; discriminate
        | apply emits_bind; [|intros ? _]
        | match goal with
          | |- emits _ (match ?x with _ => _ end) => destruct x
          end ].

Ltac emits_all := repeat (cbv zeta; emits_step).

(** The log only grows. *)
Lemma In_grows {A} (x : msg) (m : M A) (l : list msg) :
  emits (fun _ => True) m -> In x l -> In x (snd (m l)).
Proof.
  intros Hm Hx. destruct (Hm l) as (out & -> & _). apply in_or_app. now left.
Qed.

Lemma In_bind_emit {B} (x : msg) (k : unit -> M B) (l : list msg) :
  emits (fun _ => True) (k tt) -> In x (snd (bind (when true (emit x)) k l)).
Proof.
  intros Hk. unfold bind, when, emit. apply In_grows; [exact Hk|].
  apply in_or_app. right. now left.
Qed.

(** The normalisation and origin blocks of [main_body] end as
    [normalized] and [resolve_origin] say. *)
Ltac ends_normalized :=
  unfold normalized;
  match goal with
  | |- ends (if ?n then _ else _) _ => destruct n; [|apply ends_ret]
  end;
  apply ends_bind;
  [ match goal with
    | |- ends (match ?r with _ => _ end) _ => destruct r; [|apply ends_ret]
    end;
    apply ends_bind; [apply ends_call|intro; apply ends_ret]
  | intro; apply ends_then; auto with ends ].

Ltac ends_origin :=
  unfold resolve_origin, box_of;
  match goal with
  | |- ends (match ?o with _ => _ end) _ => destruct o as [?s|]
  end;
  [ match goal with
    | |- ends (match ?q with _ => _ end) _ => destruct q as [?l|]
    end;
    [ cbv zeta;
      match goal with
      | |- ends (match ?c with _ => _ end) _ => destruct c as [[|]|]
      end; repeat ends_step
    | repeat ends_step ]
  | repeat ends_step ].

(** Walk down [main_body] to the mask test, along a run that has read its
    input, normalised without raising and accepted the origin. *)
Ltac to_mask_test E a dat hdr final o Hr Hf Ho :=
  unfold main, main_body;
  log_step (dat, hdr); [now rewrite Hr|]; cbn [fst snd];
  log_step final;
  [ match goal with
    | |- fst (?blk ?l) = _ =>
        rewrite <- Hf; generalize l; change (ends blk (normalized E a dat));
        ends_normalized
    end |];
  log_step (resolve_apix a hdr);
  [ unfold resolve_apix; now destruct (apix a) |];
  do 3 (log_step tt; [apply ends_when, ends_emit|]);
  log_step o;
  [ match goal with
    | |- fst (?blk ?l) = _ =>
        rewrite <- Ho; generalize l;
        change (ends blk (resolve_origin E a hdr (resolve_apix a hdr)));
        ends_origin
    end |].

(** X12.  The mask warning.  It is logged only for an input that
    [ismask] classifies as a mask with a spline order other than 0; and in
    every run that reads its input, normalises without raising and accepts
    the origin, it is logged exactly in that case. *)
Theorem mask_warning_logged_iff :
  forall (E : Env) (a : args),
    (In WarnMask (snd (main E a)) ->
     exists dat hdr,
       read E (input a) = Some (dat, hdr) /\ ismask dat = Some true /\
       spline_order a <> 0%nat) /\
    (forall dat hdr final o,
        read E (input a) = Some (dat, hdr) ->
        normalized E a dat = Val final ->
        resolve_origin E a hdr (resolve_apix a hdr) = Val o ->
        (In WarnMask (snd (main E a))
         <-> ismask dat = Some true /\ spline_order a <> 0%nat)).
Proof.
  intros E a.
  set (P := fun x : msg =>
              x = WarnMask ->
              exists dat hdr,
                read E (input a) = Some (dat, hdr) /\ ismask dat = Some true /\
                spline_order a <> 0%nat).
  assert (Honly : In WarnMask (snd (main E a)) -> P WarnMask).
  { assert (He : emits P (main_body E ismask a)).
    { unfold main_body.
      apply emits_bind; [apply emits_call|intros dh Hdh]. apply call_val in Hdh.
      cbv zeta.
      apply emits_bind; [subst P; emits_all|intros final _].
      apply emits_bind; [subst P; emits_all|intros p _].
      do 3 (apply emits_bind; [subst P; emits_all|intros _ _]).
      apply emits_bind; [subst P; emits_all|intros o _].
      apply emits_bind; [apply emits_call|intros mask Hmask].
      apply call_val in Hmask.
      apply emits_bind; [|intros _ _; subst P; emits_all].
      apply emits_when. intros Hb _. exists (fst dh), (snd dh).
      apply andb_prop in Hb as [-> Hord].
      rewrite <- surjective_pairing. repeat split; try assumption.
      intros H0. rewrite H0 in Hord. discriminate. }
    intros Hin. unfold main in Hin.
    destruct (He []) as (out & Hs & Hf). rewrite Hs in Hin. cbn in Hin.
    rewrite Forall_forall in Hf. exact (Hf _ Hin). }
  split.
  - intros Hin. now apply Honly.
  - intros dat hdr final o Hr Hf Ho. split.
    + intros Hin. destruct (Honly Hin eq_refl) as (dat' & hdr' & Hr' & Hm & Hord).
      rewrite Hr in Hr'. injection Hr' as <- <-. now split.
    + intros [Hm Hord].
      to_mask_test E a dat hdr final o Hr Hf Ho.
      log_step true; [now rewrite Hm|].
      destruct (spline_order a) as [|n]; [contradiction|].
      cbn [andb negb Nat.eqb].
      apply In_bind_emit. emits_all.
Qed.

Lemma mask_warning_logged_iff_witness :
  In WarnMask (snd (main (example_env cube8) (args_order3 None None None None None))).
Proof.
  apply (proj2 (mask_warning_logged_iff (example_env cube8)
                  (args_order3 None None None None None))
               cube8 header8 None [1; 1; 1] eq_refl eq_refl eq_refl).
  split; [reflexivity | discriminate].
Defined.

Ltac emits_step_with tac :=
  first [ apply emits_ret | apply emits_raise | apply emits_return
        | apply emits_call
        | apply emits_emit; tac
        | apply emits_when; intros ?; tac
        | apply emits_bind; [|intros ? _]
        | match goal with
          | |- emits _ (match ?x with _ => _ end) => destruct x
          end ].

Ltac advisory_case :=
  repeat split; intros; first [assumption | discriminate].

(** X13.  The ordering advisories.  "Target after matrix" is logged only
    when the target and matrix strings are both given and non-empty,
    "Euler after target" only when Euler angles are given together with a
    target or a matrix, "translation last" only when a translation is
    given together with any other mechanism; and every run that reads its
    input and normalises without raising logs each of them exactly in that
    case, before anything is parsed. *)
Theorem ordering_advisories_logged_iff :
  forall (E : Env) (a : args),
    let c1 := truthy (target a) && truthy (matrix a) in
    let c2 := given (euler a) && (given (target a) || given (matrix a)) in
    let c3 := given (translate a)
              && (given (euler a) || given (target a) || given (matrix a)) in
    let log := snd (main E a) in
    ((In WarnTargetAfterMatrix log -> c1 = true) /\
     (In WarnEulerAfterTarget log -> c2 = true) /\
     (In WarnTranslateLast log -> c3 = true)) /\
    (forall dat hdr final,
        read E (input a) = Some (dat, hdr) ->
        normalized E a dat = Val final ->
        (c1 = true -> In WarnTargetAfterMatrix log) /\
        (c2 = true -> In WarnEulerAfterTarget log) /\
        (c3 = true -> In WarnTranslateLast log)).
Proof.
  intros E a c1 c2 c3 log.
  set (P := fun x : msg =>
              (x = WarnTargetAfterMatrix -> c1 = true) /\
              (x = WarnEulerAfterTarget -> c2 = true) /\
              (x = WarnTranslateLast -> c3 = true)).
  assert (He : emits P (main_body E ismask a)).
  { unfold main_body. subst P c1 c2 c3.
    repeat (cbv zeta; emits_step_with advisory_case). }
  assert (Hall : forall x, In x log -> P x).
  { intros x Hin. subst log. unfold main in Hin.
    destruct (He []) as (out & Hs & Hf). rewrite Hs in Hin. cbn in Hin.
    rewrite Forall_forall in Hf. exact (Hf _ Hin). }
  split.
  - repeat split; intros Hin; apply (Hall _ Hin); reflexivity.
  - intros dat hdr final Hr Hf. subst log.
    assert (Hstart : forall x,
               (forall l (k : unit -> M written),
                            (forall u, emits (fun _ => True) (k u)) ->
                            In x (snd (bind (when c1 (emit WarnTargetAfterMatrix))
                                        (fun _ =>
                                         bind (when c2 (emit WarnEulerAfterTarget))
                                           (fun _ =>
                                            bind (when c3 (emit WarnTranslateLast)) k))
                                        l))) ->
               In x (snd (main E a))).
    { intros x Hx. unfold main, main_body.
      log_step (dat, hdr); [now rewrite Hr|]. cbn [fst snd].
      log_step final.
      { match goal with
        | |- fst (?blk ?l) = _ =>
            rewrite <- Hf; generalize l; change (ends blk (normalized E a dat));
            ends_normalized
        end. }
      log_step (resolve_apix a hdr);
        [unfold resolve_apix; now destruct (apix a)|].
      apply Hx. intros u. emits_all. }
    repeat split; intros Hc; apply Hstart; intros l k Hk.
    + rewrite Hc. apply In_bind_emit. emits_all. apply Hk.
    + log_step tt; [apply ends_when, ends_emit|].
      rewrite Hc. apply In_bind_emit. emits_all. apply Hk.
    + do 2 (log_step tt; [apply ends_when, ends_emit|]).
      rewrite Hc. apply In_bind_emit. apply Hk.
Qed.

Lemma ordering_advisories_logged_iff_witness :
  In WarnTranslateLast
     (snd (main (example_env cube8)
                (example_args false None None (Some "0,0,0"%string)
                              (Some "2,1,1"%string) None))).
Proof.
  apply (proj2 (ordering_advisories_logged_iff (example_env cube8)
                  (example_args false None None (Some "0,0,0"%string)
                                (Some "2,1,1"%string) None))
               cube8 header8 None eq_refl eq_refl).
  reflexivity.
Defined.

Lemma indices_In (s : nat * nat * nat) (p : vec) :
  In p (indices s) -> exists i j k, p = [i; j; k].
Proof.
  unfold indices. destruct s as [[n0 n1] n2]. cbv zeta. intros H.
  apply in_flat_map in H as (i & _ & H).
  apply in_flat_map in H as (j & _ & H).
  apply in_map_iff in H as (k & <- & _). now exists i, j, k.
Qed.

(** X14.  The translation step is relative to the origin.  In a run
    without normalisation that requests only a translation x,y,z, with
    pixel size [p] and resolved origin (ox,oy,oz), output voxel [i] is
    filled from the point [i + (x/p - ox, y/p - oy, z/p - oz)] of the
    input: a translation equal to the origin samples every voxel at its
    own index, and a zero translation samples at [i - origin]. *)
Theorem translation_is_relative_to_origin :
  forall (E : Env) (a : args) dat hdr b s x y z ox oy oz,
    read E (input a) = Some (dat, hdr) ->
    normalize a = false ->
    ismask dat = Some b ->
    matrix a = None -> target a = None -> euler a = None ->
    translate a = Some s -> parse_floats E s = Some [x; y; z] ->
    let p := resolve_apix a hdr in
    resolve_origin E a hdr p = Val [ox; oy; oz] ->
    exists coords,
      fst (main E a)
      = Val (mkwritten (output a)
               (mkarray (shape dat) (map (interp E (spline_order a) dat) coords)) p) /\
      Forall2 veq coords
              (map (fun i => map (fun q => fst q + snd q)
                                 (combine i [x / p - ox; y / p - oy; z / p - oz]))
                   (indices (shape dat))).
Proof.
  intros E a dat hdr b s x y z ox oy oz Hr Hn Hb Hm Ht He Htr Hp p Ho.
  exists (map (fun i => map (fun q => fst q - snd q)
                            (combine i (neg [x / p - ox; y / p - oy; z / p - oz])))
              (indices (shape dat))).
  split.
  - rewrite main_fst, (outcome_pose E ismask a dat hdr Hr).
    unfold normalized. rewrite Hn. cbn [rbind]. fold p. rewrite Ho, Hb.
    cbn [rcall rbind].
    unfold pose_steps, matrix_step, target_step, euler_step, translate_step.
    rewrite Hm, Ht, He, Htr, Hp.
    cbn [rbind rcall isub div_scalar map length Nat.eqb combine fst snd neg shift].
    now rewrite map_map.
  - apply Forall2_map_pointwise. intros i Hi.
    apply indices_In in Hi as (i0 & i1 & i2 & ->).
    unfold veq. cbn [neg map combine fst snd].
    repeat (apply Forall2_cons; [ring|]). apply Forall2_nil.
Qed.

Lemma translation_is_relative_to_origin_witness :
  exists coords,
    fst (main (example_env cube8)
              (example_args false None None None (Some "2,1,1"%string) None))
    = Val (mkwritten "out.mrc"
             (mkarray (2, 2, 2)%nat (map (nearest 0 cube8) coords)) 1) /\
    Forall2 veq coords
            (map (fun i => map (fun q => fst q + snd q)
                               (combine i [2 / 1 - 1; 1 / 1 - 1; 1 / 1 - 1]))
                 (indices (2, 2, 2)%nat)).
Proof.
  exact (translation_is_relative_to_origin (example_env cube8)
           (example_args false None None None (Some "2,1,1"%string) None)
           cube8 header8 true "2,1,1"%string 2 1 1 1 1 1
           eq_refl eq_refl eq_refl eq_refl eq_refl eq_refl eq_refl eq_refl
           eq_refl).
Defined.

(** X15.  A run that requests neither normalisation nor any pose
    mechanism, and whose origin is absent or valid, writes the input
    volume unchanged (provided [ismask] can slice it, i.e. its third
    dimension is not zero). *)
Theorem plain_run_copies_input :
  forall (E : Env) (a : args) dat hdr o,
    read E (input a) = Some (dat, hdr) ->
    normalize a = false ->
    no_pose a ->
    resolve_origin E a hdr (resolve_apix a hdr) = Val o ->
    depth dat <> 0%nat ->
    fst (main E a) = Val (mkwritten (output a) dat (resolve_apix a hdr)).
Proof.
  intros E a dat hdr o Hr Hn (Hm & Ht & He & Htr) Ho Hd.
  rewrite main_fst, (outcome_pose E ismask a dat hdr Hr).
  unfold normalized. rewrite Hn, Ho, (ismask_planes dat Hd).
  cbn [rbind rcall].
  unfold pose_steps, matrix_step, target_step, euler_step, translate_step.
  now rewrite Hm, Ht, He, Htr.
Qed.

Lemma plain_run_copies_input_witness :
  fst (main (example_env cube8) (example_args false None None None None None))
  = Val (mkwritten "out.mrc" cube8 1).
Proof.
  apply (plain_run_copies_input (example_env cube8)
           (example_args false None None None None None) cube8 header8 [1; 1; 1]);
    try reflexivity.
  - repeat split.
  - discriminate.
Defined.

(** * The centre of mass of an image *)

Module RecenterFacts.
Import Recenter.

Lemma Qsum_scale (c : Q) (l : list Q) : Qsum (map (Qmult c) l) == c * Qsum l.
Proof.
  unfold Qsum. induction l as [|x l IH]; cbn [map fold_right]; [ring|].
  rewrite IH. ring.
Qed.

Lemma weighted_scale (c : Q) (a w : list Q) :
  Qsum (map (fun q => fst q * snd q) (combine a (map (Qmult c) w)))
  == c * Qsum (map (fun q => fst q * snd q) (combine a w)).
Proof.
  unfold Qsum. revert w. induction a as [|x a IH]; intros [|y w];
    cbn [map combine fold_right fst snd]; try ring.
  rewrite IH. ring.
Qed.

Lemma weighted_bounds (lo hi : Q) (a w : list Q) :
  length a = length w ->
  Forall (fun x => lo <= x /\ x <= hi) a ->
  Forall (fun x => 0 <= x) w ->
  lo * Qsum w <= Qsum (map (fun q => fst q * snd q) (combine a w)) /\
  Qsum (map (fun q => fst q * snd q) (combine a w)) <= hi * Qsum w.
Proof.
  unfold Qsum. revert w. induction a as [|x a IH]; intros [|y w] Hl Ha Hw;
    try discriminate; cbn [map combine fold_right fst snd].
  - split; lra.
  - inversion Ha as [|? ? [Hlo Hhi] Ha']; subst.
    inversion Hw as [|? ? Hy Hw']; subst.
    destruct (IH w (eq_add_S _ _ Hl) Ha' Hw') as [IH1 IH2].
    split; nra.
Qed.

Lemma Qsum_nonneg (w : list Q) : Forall (fun x => 0 <= x) w -> 0 <= Qsum w.
Proof.
  unfold Qsum. induction 1 as [|x w Hx Hw IH]; cbn [fold_right]; lra.
Qed.

Lemma arange_half_bounds (m : Z) (x : Q) :
  In x (arange (- inject_Z m) (inject_Z m)) ->
  - inject_Z m <= x /\ x <= inject_Z m - 1.
Proof.
  unfold arange. intros H. apply in_map_iff in H as (k & <- & Hk).
  apply in_seq in Hk.
  assert (Hq : inject_Z m - - inject_Z m == inject_Z (2 * m)).
  { unfold Qeq, Qminus, Qplus, Qopp, inject_Z. cbn [Qnum Qden]. lia. }
  rewrite (Qceiling_comp _ _ Hq), Qceiling_Z in Hk.
  assert (Hk' : (0 <= Z.of_nat k <= 2 * m - 1)%Z) by lia.
  destruct Hk' as [H0 H1].
  rewrite Zle_Qle in H0, H1.
  assert (He : inject_Z (2 * m - 1) == 2 * inject_Z m - 1).
  { unfold Z.sub. rewrite inject_Z_plus, inject_Z_mult, inject_Z_opp.
    change (inject_Z 2) with 2. change (inject_Z 1) with 1. lra. }
  change (inject_Z 0) with 0 in H0.
  split; lra.
Qed.
End RecenterFacts.

Lemma find_cm_unfold (im : Recenter.image) :
  Recenter.find_cm im
  = let m := (Z.of_nat (Recenter.height im) / 2)%Z in
    let xy := Recenter.meshgrid2 (arange (- inject_Z m) (inject_Z m))
                                 (arange (- inject_Z m) (inject_Z m)) in
    if Nat.eqb (2 * (Recenter.height im / 2)) (Recenter.height im)
       && Nat.eqb (2 * (Recenter.height im / 2)) (Recenter.width im)
    then if Qeq_bool (Qsum (Recenter.pixels im)) 0 then None
         else Some (Qsum (map (fun q => fst q * snd q)
                              (combine (map fst xy) (Recenter.pixels im)))
                    / Qsum (Recenter.pixels im),
                    Qsum (map (fun q => fst q * snd q)
                              (combine (map snd xy) (Recenter.pixels im)))
                    / Qsum (Recenter.pixels im))
    else None.
Proof.
  unfold Recenter.find_cm, Recenter.average. cbv zeta. cbn [fst snd].
  rewrite !length_arange_half_any.
  destruct (_ && _); [|reflexivity].
  now destruct (Qeq_bool _ 0).
Qed.

(** X16.  [find_cm] returns a centre exactly for a square image of even
    side whose pixel values do not sum to zero; on any other image
    [np.average] raises (shape mismatch with the coordinate grid, or
    weights that cannot be normalised). *)
Theorem find_cm_defined_iff :
  forall im : Recenter.image,
    Recenter.find_cm im <> None
    <-> Nat.even (Recenter.height im) = true /\
        Recenter.width im = Recenter.height im /\
        ~ Qsum (Recenter.pixels im) == 0.
Proof.
  intros im. rewrite find_cm_unfold. cbv zeta.
  rewrite <- half_twice_even.
  destruct (Nat.eqb_spec (2 * (Recenter.height im / 2)) (Recenter.height im))
    as [E1|N1]; cbn [andb].
  - destruct (Nat.eqb_spec (2 * (Recenter.height im / 2)) (Recenter.width im))
      as [E2|N2].
    + destruct (Qeq_bool (Qsum (Recenter.pixels im)) 0) eqn:Hq.
      * apply Qeq_bool_iff in Hq. split; [intros H; now exfalso|]. tauto.
      * apply Qeq_bool_neq in Hq. split; [intros _|discriminate].
        repeat split; [exact E1 | congruence | exact Hq].
    + split; [intros H; now exfalso|]. intros (_ & Hw & _). congruence.
  - split; [intros H; now exfalso|]. tauto.
Qed.

(** X17.  The centre of mass does not depend on the intensity scale:
    multiplying every pixel by a non-zero constant gives the same centre. *)
Theorem find_cm_scale_invariant :
  forall (im : Recenter.image) (c mx my : Q),
    ~ c == 0 ->
    Recenter.find_cm im = Some (mx, my) ->
    exists mx' my',
      Recenter.find_cm (Recenter.scale c im) = Some (mx', my') /\
      mx' == mx /\ my' == my.
Proof.
  intros im c mx my Hc H. rewrite find_cm_unfold in *. cbv zeta in *.
  cbn [Recenter.scale Recenter.height Recenter.width Recenter.pixels].
  destruct (_ && _); [|discriminate].
  destruct (Qeq_bool (Qsum (Recenter.pixels im)) 0) eqn:Hq; [discriminate|].
  apply Qeq_bool_neq in Hq. injection H as <- <-.
  assert (Hs : ~ Qsum (map (Qmult c) (Recenter.pixels im)) == 0).
  { rewrite RecenterFacts.Qsum_scale. intros H.
    apply Qmult_integral in H. tauto. }
  destruct (Qeq_bool (Qsum (map (Qmult c) (Recenter.pixels im))) 0) eqn:Hq'.
  { apply Qeq_bool_iff in Hq'. contradiction. }
  eexists _, _. split; [reflexivity|].
  rewrite !RecenterFacts.weighted_scale, RecenterFacts.Qsum_scale.
  split; field; split; assumption.
Qed.

Lemma find_cm_scale_invariant_witness :
  exists mx' my',
    Recenter.find_cm (Recenter.scale 2 two_by_two) = Some (mx', my') /\
    mx' == - (1 # 3) /\ my' == - (1 # 3).
Proof.
  destruct (find_cm_scale_invariant two_by_two 2 (- (2 # 6)) (- (2 # 6)))
    as (mx' & my' & H & Hx & Hy).
  - discriminate.
  - vm_compute. reflexivity.
  - exists mx', my'. split; [exact H|]. split.
    + rewrite Hx. reflexivity.
    + rewrite Hy. reflexivity.
Defined.

Lemma meshgrid2_length (xs ys : vec) :
  length (Recenter.meshgrid2 xs ys) = (length ys * length xs)%nat.
Proof.
  unfold Recenter.meshgrid2. apply length_flat_map_const. intros y.
  apply length_map.
Qed.

Lemma meshgrid2_In (xs ys : vec) (q : Q * Q) :
  In q (Recenter.meshgrid2 xs ys) -> In (fst q) xs /\ In (snd q) ys.
Proof.
  unfold Recenter.meshgrid2. intros H.
  apply in_flat_map in H as (y & Hy & H).
  apply in_map_iff in H as (x & <- & Hx). now split.
Qed.

(** X18.  For an image without negative pixels, the centre returned by
    [find_cm] lies within the coordinate grid: both coordinates are
    between [-l] and [l - 1], with [l] half the image side. *)
Theorem find_cm_within_grid :
  forall (im : Recenter.image) (mx my : Q),
    Recenter.wf_image im ->
    Forall (fun x => 0 <= x) (Recenter.pixels im) ->
    Recenter.find_cm im = Some (mx, my) ->
    let l := inject_Z (Z.of_nat (Recenter.height im) / 2) in
    (- l <= mx /\ mx <= l - 1) /\ (- l <= my /\ my <= l - 1).
Proof.
  intros im mx my Hwf Hpos H l. rewrite find_cm_unfold in H. cbv zeta in H.
  destruct (Nat.eqb_spec (2 * (Recenter.height im / 2)) (Recenter.height im))
    as [E1|N1]; [|discriminate].
  destruct (Nat.eqb_spec (2 * (Recenter.height im / 2)) (Recenter.width im))
    as [E2|N2]; [|discriminate].
  cbn [andb] in H.
  destruct (Qeq_bool (Qsum (Recenter.pixels im)) 0) eqn:Hq; [discriminate|].
  apply Qeq_bool_neq in Hq. injection H as <- <-.
  pose proof (RecenterFacts.Qsum_nonneg _ Hpos) as Hs0.
  assert (Hs : 0 < Qsum (Recenter.pixels im)).
  { apply Qle_lteq in Hs0 as [Hs0|Hs0]; [exact Hs0|]. exfalso. apply Hq.
    now symmetry. }
  set (m := (Z.of_nat (Recenter.height im) / 2)%Z) in *.
  set (xy := Recenter.meshgrid2 (arange (- inject_Z m) (inject_Z m))
                                (arange (- inject_Z m) (inject_Z m))) in *.
  assert (Hlen : length xy = length (Recenter.pixels im)).
  { subst xy m. rewrite meshgrid2_length, !length_arange_half_any.
    rewrite Hwf. congruence. }
  assert (Hb : forall proj : Q * Q -> Q,
             (forall q, In q xy -> - l <= proj q /\ proj q <= l - 1) ->
             - l <= Qsum (map (fun q => fst q * snd q)
                              (combine (map proj xy) (Recenter.pixels im)))
                    / Qsum (Recenter.pixels im) /\
             Qsum (map (fun q => fst q * snd q)
                       (combine (map proj xy) (Recenter.pixels im)))
             / Qsum (Recenter.pixels im) <= l - 1).
  { intros proj Hproj.
    destruct (RecenterFacts.weighted_bounds (- l) (l - 1) (map proj xy)
                (Recenter.pixels im)) as [H1 H2].
    - now rewrite length_map.
    - apply Forall_forall. intros x Hx.
      apply in_map_iff in Hx as (q & <- & Hq'). now apply Hproj.
    - exact Hpos.
    - split.
      + apply Qle_shift_div_l; assumption.
      + apply Qle_shift_div_r; assumption. }
  split; apply Hb; intros q Hq'; apply meshgrid2_In in Hq' as [Hx Hy];
    now apply RecenterFacts.arange_half_bounds.
Qed.

Lemma find_cm_within_grid_witness :
  (- 1 <= - (2 # 6) /\ - (2 # 6) <= 1 - 1) /\
  (- 1 <= - (2 # 6) /\ - (2 # 6) <= 1 - 1).
Proof.
  apply (find_cm_within_grid two_by_two (- (2 # 6)) (- (2 # 6))).
  - reflexivity.
  - repeat constructor; discriminate.
  - vm_compute. reflexivity.
Defined.
